(** * MyDb: the arena allocator and the skip list (util/arena.h, db/skiplist.h)

    A shallow embedding of the two headers and the properties their
    specification states.

    db/skiplist.h holds two states of the header, one after the other;
    the embedding follows the later, complete one (the one with the
    bodies of [NewNode], the iterator, [RandomHeight] and the assertion
    in [Insert]).  util/arena.h defines [Allocate] only; the arena's
    other members are declared there and modelled from the
    specification.  util/random.h is absent: the generator is a
    parameter.

    Pointers are modelled the way the code uses them: a [char*] of the
    arena is a block together with an offset inside it, a [Node*] is the
    index of the node in the store of all nodes the arena ever handed
    out ([None] for [nullptr]).  The C++ [int]s stay in [Z] (none of the
    operations on them leaves the range of a level or a height),
    [size_t] in [N].  Atomic stores are logged with their memory order.
    Loops without a syntactic bound ([while (true)]) run on fuel. *)

From stdpp Require Import base numbers list sets sorting strings.

Set Warnings "-clear-no-such-hyp".

(** ** Outcomes of a call *)

Inductive fault : Set :=
| AssertionFailed   (* an [assert] did not hold *)
| Undefined         (* null or dangling dereference, indeterminate read, out-of-bounds slot *)
| OutOfFuel.        (* the model's loop budget ran out *)

Inductive outcome (A : Type) : Type :=
| Ok (a : A)
| Fault (f : fault).
Arguments Ok {A} a.
Arguments Fault {A} f.

Definition bind {A B : Type} (m : outcome A) (k : A -> outcome B) : outcome B :=
  match m with
  | Ok a => k a
  | Fault f => Fault f
  end.

Notation "'let*' x ':=' m 'in' k" := (bind m (fun x => k))
  (at level 10, x pattern, m at level 100, k at level 200).

(** [for (i = start; <n iterations>; i++) body] *)
Fixpoint for_up {S : Type} (n : nat) (i : Z) (body : Z -> S -> outcome S) (s : S) : outcome S :=
  match n with
  | O => Ok s
  | S n' => let* s' := body i s in for_up n' (i + 1)%Z body s'
  end.

(** ** util/arena.h *)

Module Arena.

Local Open Scope N_scope.

(** A [char*]: [nullptr], or byte [off] of block [block]. *)
Inductive char_ptr : Set :=
| nullptr
| Ptr (block : nat) (off : N).

(** [blocks] holds, for every block, the size it was allocated with; the
    pointer the vector stores for entry [b] is [Ptr b 0]. *)
Record Arena : Set := mkArena {
  alloc_ptr_ : char_ptr;
  alloc_bytes_remaining_ : N;
  blocks : list N;
  memory_usage_ : N
}.

(** [p + n] on a [char*]. *)
Definition ptr_add (p : char_ptr) (n : N) : char_ptr :=
  match p with
  | nullptr => nullptr
  | Ptr b o => Ptr b (o + n)
  end.

Definition kBlockSize : N := 4096.

(** Modelled from the spec: the constructor [Arena::Arena()] is only
    declared in the header; a fresh arena owns no block and has an empty
    cursor. *)
Definition Arena_new : Arena :=
  {| alloc_ptr_ := nullptr; alloc_bytes_remaining_ := 0; blocks := []; memory_usage_ := 0 |}.

(** Modelled from the spec: [Arena::AllocateNewBlock] is only declared in
    the header.  It obtains a fresh block of [block_bytes] bytes, records
    it in [blocks] and adds its size to the usage counter. *)
Definition AllocateNewBlock (block_bytes : N) (a : Arena) : char_ptr * Arena :=
  (Ptr (length (blocks a)) 0,
   {| alloc_ptr_ := alloc_ptr_ a;
      alloc_bytes_remaining_ := alloc_bytes_remaining_ a;
      blocks := blocks a ++ [block_bytes];
      memory_usage_ := memory_usage_ a + block_bytes |}).

(** Modelled from the spec: [Arena::AllocateFallback] is only declared in
    the header.  A request above a quarter of the standard block size gets
    a block of its own, sized exactly; any other request opens a new
    standard block, abandons the rest of the old one and is served from
    the start of the new block. *)
Definition AllocateFallback (bytes : N) (a : Arena) : char_ptr * Arena :=
  if kBlockSize / 4 <? bytes then
    AllocateNewBlock bytes a
  else
    let '(p, a') := AllocateNewBlock kBlockSize a in
    (p, {| alloc_ptr_ := ptr_add p bytes;
           alloc_bytes_remaining_ := kBlockSize - bytes;
           blocks := blocks a';
           memory_usage_ := memory_usage_ a' |}).

(** [inline char* Arena::Allocate(size_t bytes)].  The [assert(bytes >= 0)]
    holds of every [size_t]. *)
Definition Allocate (bytes : N) (a : Arena) : char_ptr * Arena :=
  if bytes <=? alloc_bytes_remaining_ a then
    let result := alloc_ptr_ a in
    (result,
     {| alloc_ptr_ := ptr_add (alloc_ptr_ a) bytes;
        alloc_bytes_remaining_ := alloc_bytes_remaining_ a - bytes;
        blocks := blocks a;
        memory_usage_ := memory_usage_ a |})
  else AllocateFallback bytes a.

(** [memory_usage_.load(std::memory_order_relaxed)] *)
Definition MemoryUsage (a : Arena) : N := memory_usage_ a.

Definition kAlign : N := 8.

(** Offset of a pointer inside its block; blocks start on an aligned
    address, so the offset decides the alignment. *)
Definition ptr_off (p : char_ptr) : N :=
  match p with
  | nullptr => 0
  | Ptr _ o => o
  end.

(** Modelled from the spec: [Arena::AllocateAligned] is only declared in
    the header.  It rounds the cursor up to the alignment boundary before
    checking capacity and falls back when too little room remains. *)
Definition AllocateAligned (bytes : N) (a : Arena) : char_ptr * Arena :=
  let current_mod := ptr_off (alloc_ptr_ a) mod kAlign in
  let slop := if current_mod =? 0 then 0 else kAlign - current_mod in
  let needed := bytes + slop in
  if needed <=? alloc_bytes_remaining_ a then
    (ptr_add (alloc_ptr_ a) slop,
     {| alloc_ptr_ := ptr_add (alloc_ptr_ a) needed;
        alloc_bytes_remaining_ := alloc_bytes_remaining_ a - needed;
        blocks := blocks a;
        memory_usage_ := memory_usage_ a |})
  else AllocateFallback bytes a.

(** A client's request, and the byte range a request was answered with. *)
Inductive call : Set :=
| CallAllocate (bytes : N)
| CallAllocateAligned (bytes : N).

Definition range : Set := (char_ptr * N)%type.

Definition perform (c : call) (a : Arena) : range * Arena :=
  match c with
  | CallAllocate bytes => let '(p, a') := Allocate bytes a in ((p, bytes), a')
  | CallAllocateAligned bytes => let '(p, a') := AllocateAligned bytes a in ((p, bytes), a')
  end.

(** Runs the calls in order; the ranges come back in call order. *)
Fixpoint run (cs : list call) (a : Arena) : list range * Arena :=
  match cs with
  | [] => ([], a)
  | c :: cs' =>
      let '(r, a') := perform c a in
      let '(rs, a'') := run cs' a' in
      (r :: rs, a'')
  end.

(** Byte [o] of block [b] lies in the range. *)
Definition in_range (b : nat) (o : N) (r : range) : Prop :=
  exists o', r.1 = Ptr b o' /\ o' <= o < o' + r.2.

Definition overlap (r1 r2 : range) : Prop :=
  exists b o, in_range b o r1 /\ in_range b o r2.

(** The cursor points into a block of the arena and the bytes it still
    promises fit in that block. *)
Definition wf (a : Arena) : Prop :=
  match alloc_ptr_ a with
  | nullptr => alloc_bytes_remaining_ a = 0
  | Ptr b o => exists sz, blocks a !! b = Some sz /\ o + alloc_bytes_remaining_ a <= sz
  end.

(** Every byte of [r] lies in a block of [a], and below the cursor when
    it lies in the cursor's block. *)
Definition behind (a : Arena) (r : range) : Prop :=
  forall b o, in_range b o r ->
    (b < length (blocks a))%nat /\ (forall co, alloc_ptr_ a = Ptr b co -> o < co).

Fixpoint pairwise_apart (rs : list range) : Prop :=
  match rs with
  | [] => True
  | r :: rs' => Forall (fun r' => ~ overlap r r') rs' /\ pairwise_apart rs'
  end.

End Arena.

(** ** db/skiplist.h *)

Module SkipList.

Local Open Scope Z_scope.

(** The template parameters [Key] and [Comparator], the generator of
    util/random.h (not part of the sources at hand: its constructor and
    [OneIn] are taken as given), the conversion [Key(0)] the constructor
    relies on, and whether the build defines [NDEBUG]. *)
Class Params : Type := {
  Key : Type;
  compare_ : Key -> Key -> Z;
  Key_of_int : Z -> Key;
  Random : Type;
  Random_new : Z -> Random;
  OneIn : Z -> Random -> bool * Random;
  NDEBUG : bool
}.

Inductive memory_order : Set :=
| memory_order_relaxed
| memory_order_acquire
| memory_order_release.

(** A [Node*]: [None] is [nullptr], [Some a] the node stored at index [a]. *)
Definition NodePtr : Set := option nat.

(** A local [Node* prev[kMaxHeight]]; an entry not yet assigned is [None]. *)
Abbreviation PrevArray := (list (option NodePtr)).

(** A write to an atomic, in program order. *)
Inductive event : Set :=
| StoreNext (x : nat) (n : Z) (v : NodePtr) (o : memory_order)
| StoreMaxHeight (h : Z) (o : memory_order).

Section Definitions.
Context {P : Params}.

(** [struct Node]: the key and the forward pointers [next_[0 .. height-1]];
    a slot that was never written holds [None] (indeterminate). *)
Record Node : Type := mkNode {
  key : Key;
  next_ : list (option NodePtr)
}.

(** The list: [nodes] is the memory the arena handed out for nodes, in
    allocation order; [stores] logs the atomic writes performed so far. *)
Record SkipList : Type := mkSkipList {
  nodes : list Node;
  head_ : NodePtr;
  max_height_ : Z;
  rnd_ : Random;
  stores : list event
}.

Definition kMaxHeight : Z := 12.

Definition with_nodes (sl : SkipList) (ns : list Node) : SkipList :=
  mkSkipList ns (head_ sl) (max_height_ sl) (rnd_ sl) (stores sl).
Definition with_head (sl : SkipList) (h : NodePtr) : SkipList :=
  mkSkipList (nodes sl) h (max_height_ sl) (rnd_ sl) (stores sl).
Definition with_rnd (sl : SkipList) (r : Random) : SkipList :=
  mkSkipList (nodes sl) (head_ sl) (max_height_ sl) r (stores sl).
Definition logged (sl : SkipList) (e : event) : SkipList :=
  mkSkipList (nodes sl) (head_ sl) (max_height_ sl) (rnd_ sl) (stores sl ++ [e]).

(** [assert(c)]: compiled out under [NDEBUG]. *)
Definition assert (c : outcome bool) : outcome unit :=
  if NDEBUG then Ok tt
  else let* b := c in if b then Ok tt else Fault AssertionFailed.

(** [*x] *)
Definition deref (sl : SkipList) (x : NodePtr) : outcome Node :=
  match x with
  | None => Fault Undefined
  | Some a =>
      match nodes sl !! a with
      | Some nd => Ok nd
      | None => Fault Undefined
      end
  end.

(** [next_[n].load(o)] on node [x]. *)
Definition load_next (o : memory_order) (sl : SkipList) (x : NodePtr) (n : Z)
  : outcome NodePtr :=
  let* nd := deref sl x in
  if n <? 0 then Fault Undefined
  else match next_ nd !! Z.to_nat n with
       | Some (Some p) => Ok p
       | _ => Fault Undefined
       end.

(** [next_[n].store(v, o)] on node [x]. *)
Definition store_next (o : memory_order) (sl : SkipList) (x : NodePtr) (n : Z) (v : NodePtr)
  : outcome SkipList :=
  let* nd := deref sl x in
  match x with
  | None => Fault Undefined
  | Some a =>
      if (n <? 0) || (Z.of_nat (length (next_ nd)) <=? n) then Fault Undefined
      else
        let nd' := mkNode (key nd) (<[Z.to_nat n := Some v]> (next_ nd)) in
        Ok (logged (with_nodes sl (<[a := nd']> (nodes sl))) (StoreNext a n v o))
  end.

Definition Next (sl : SkipList) (x : NodePtr) (n : Z) : outcome NodePtr :=
  let* _ := assert (Ok (0 <=? n)) in
  load_next memory_order_acquire sl x n.

Definition SetNext (sl : SkipList) (x : NodePtr) (n : Z) (v : NodePtr)
  : outcome SkipList :=
  let* _ := assert (Ok (0 <=? n)) in
  store_next memory_order_release sl x n v.

Definition NoBarrier_Next (sl : SkipList) (x : NodePtr) (n : Z) : outcome NodePtr :=
  let* _ := assert (Ok (0 <=? n)) in
  load_next memory_order_relaxed sl x n.

Definition NoBarrier_SetNext (sl : SkipList) (x : NodePtr) (n : Z) (v : NodePtr)
  : outcome SkipList :=
  let* _ := assert (Ok (0 <=? n)) in
  store_next memory_order_relaxed sl x n v.

Definition GetMaxHight (sl : SkipList) : Z := max_height_ sl.

Definition Equal (a b : Key) : bool := compare_ a b =? 0.

(** [NewNode]: the arena's [AllocateAligned] (reached as
    [arena_.AllocateAligned] in the source, [arena_] being a pointer)
    returns fresh memory for a node with [height] forward pointers (one
    inside [Node], [height - 1] behind it); the placement-new sets the
    key and leaves the pointers unwritten. *)
Definition NewNode (k : Key) (height : Z) (sl : SkipList) : NodePtr * SkipList :=
  (Some (length (nodes sl)),
   with_nodes sl (nodes sl ++ [mkNode k (replicate (Z.to_nat (1 + (height - 1))) None)])).

Definition kBranching : Z := 4.

(** The loop of [RandomHeight]; every round raises [height], so
    [kMaxHeight] rounds are a budget the guard never lets run out. *)
Fixpoint RandomHeight_loop (fuel : nat) (height : Z) (r : Random) : outcome (Z * Random) :=
  match fuel with
  | O => Fault OutOfFuel
  | S fuel' =>
      if height <? kMaxHeight then
        let '(drawn, r') := OneIn kBranching r in
        if drawn then RandomHeight_loop fuel' (height + 1) r'
        else Ok (height, r')
      else Ok (height, r)
  end.

Definition RandomHeight (sl : SkipList) : outcome (Z * SkipList) :=
  let* (height, r) := RandomHeight_loop (Z.to_nat kMaxHeight) 1 (rnd_ sl) in
  let* _ := assert (Ok (0 <? height)) in
  let* _ := assert (Ok (height <=? kMaxHeight)) in
  Ok (height, with_rnd sl r).

Definition KeyIsAfterNode (sl : SkipList) (k : Key) (n : NodePtr) : outcome bool :=
  match n with
  | None => Ok false
  | Some _ => let* nd := deref sl n in Ok (compare_ (key nd) k <? 0)
  end.

Definition prev_set (prev : PrevArray) (i : Z) (x : NodePtr) : outcome PrevArray :=
  if (0 <=? i) && (i <? Z.of_nat (length prev)) then Ok (<[Z.to_nat i := Some x]> prev)
  else Fault Undefined.

Definition prev_get (prev : PrevArray) (i : Z) : outcome NodePtr :=
  if i <? 0 then Fault Undefined
  else match prev !! Z.to_nat i with
       | Some (Some p) => Ok p
       | _ => Fault Undefined
       end.

(** The [while (true)] of [FindGreaterOrEqual]; [prev = None] is the call
    with [nullptr] for the out-array. *)
Fixpoint FindGreaterOrEqual_loop (fuel : nat) (sl : SkipList) (k : Key)
    (x : NodePtr) (level : Z) (prev : option PrevArray) : outcome (NodePtr * option PrevArray) :=
  match fuel with
  | O => Fault OutOfFuel
  | S fuel' =>
      let* next := Next sl x level in
      let* after := KeyIsAfterNode sl k next in
      if after then FindGreaterOrEqual_loop fuel' sl k next level prev
      else
        let* prev' := match prev with
                      | None => Ok None
                      | Some pa => let* pa' := prev_set pa level x in Ok (Some pa')
                      end in
        if level =? 0 then Ok (next, prev')
        else FindGreaterOrEqual_loop fuel' sl k x (level - 1) prev'
  end.

Definition FindGreaterOrEqual (fuel : nat) (sl : SkipList) (k : Key) (prev : option PrevArray)
  : outcome (NodePtr * option PrevArray) :=
  let x := head_ sl in
  let level := GetMaxHight sl - 1 in
  FindGreaterOrEqual_loop fuel sl k x level prev.

(** [x == y] on node pointers. *)
Definition ptr_eqb (x y : NodePtr) : bool := bool_decide (x = y).

(** [x == head_ || compare_(x->key, key) < 0] *)
Definition head_or_before (sl : SkipList) (k : Key) (x : NodePtr) : outcome bool :=
  if ptr_eqb x (head_ sl) then Ok true
  else let* nd := deref sl x in Ok (compare_ (key nd) k <? 0).

(** [next == nullptr || compare_(next->key, key) >= 0] *)
Definition null_or_not_before (sl : SkipList) (k : Key) (next : NodePtr) : outcome bool :=
  match next with
  | None => Ok true
  | Some _ => let* nd := deref sl next in Ok (0 <=? compare_ (key nd) k)
  end.

(** The [while (true)] of [FindLessThan]. *)
Fixpoint FindLessThan_loop (fuel : nat) (sl : SkipList) (k : Key) (x : NodePtr) (level : Z)
  : outcome NodePtr :=
  match fuel with
  | O => Fault OutOfFuel
  | S fuel' =>
      let* _ := assert (head_or_before sl k x) in
      let* next := Next sl x level in
      let* stop := null_or_not_before sl k next in
      if stop then
        if level =? 0 then Ok x
        else FindLessThan_loop fuel' sl k x (level - 1)
      else FindLessThan_loop fuel' sl k next level
  end.

Definition FindLessThan (fuel : nat) (sl : SkipList) (k : Key) : outcome NodePtr :=
  let x := head_ sl in
  let level := GetMaxHight sl - 1 in
  FindLessThan_loop fuel sl k x level.

(** The [while (true)] of [FindLast]. *)
Fixpoint FindLast_loop (fuel : nat) (sl : SkipList) (x : NodePtr) (level : Z)
  : outcome NodePtr :=
  match fuel with
  | O => Fault OutOfFuel
  | S fuel' =>
      let* next := Next sl x level in
      match next with
      | None =>
          if level =? 0 then Ok x
          else FindLast_loop fuel' sl x (level - 1)
      | Some _ => FindLast_loop fuel' sl next level
      end
  end.

Definition FindLast (fuel : nat) (sl : SkipList) : outcome NodePtr :=
  let x := head_ sl in
  let level := GetMaxHight sl - 1 in
  FindLast_loop fuel sl x level.

(** The constructor. *)
Definition SkipList_new : outcome SkipList :=
  let '(h, sl) :=
    NewNode (Key_of_int 0) kMaxHeight
      (mkSkipList [] None 1 (Random_new 0xdeadbeef) []) in
  let sl := with_head sl h in
  for_up (Z.to_nat (kMaxHeight - 0)) 0 (fun i sl => SetNext sl (head_ sl) i None) sl.

(** [x == nullptr || !Equal(key, x->key)] *)
Definition absent_or_unequal (sl : SkipList) (k : Key) (x : NodePtr) : outcome bool :=
  match x with
  | None => Ok true
  | Some _ => let* nd := deref sl x in Ok (negb (Equal k (key nd)))
  end.

(** The body of the splice loop of [Insert] at level [i]. *)
Definition splice (prev : PrevArray) (x : NodePtr) (i : Z) (sl : SkipList) : outcome SkipList :=
  let* p := prev_get prev i in
  let* succ := NoBarrier_Next sl p i in
  let* sl := NoBarrier_SetNext sl x i succ in
  SetNext sl p i x.

Definition Insert (fuel : nat) (k : Key) (sl : SkipList) : outcome SkipList :=
  let prev : PrevArray := replicate (Z.to_nat kMaxHeight) None in
  let* (x, oprev) := FindGreaterOrEqual fuel sl k (Some prev) in
  let* prev := match oprev with Some pa => Ok pa | None => Fault Undefined end in
  let* _ := assert (absent_or_unequal sl k x) in
  let* (height, sl) := RandomHeight sl in
  let* (prev, sl) :=
    if GetMaxHight sl <? height then
      let* prev := for_up (Z.to_nat (height - GetMaxHight sl)) (GetMaxHight sl)
                     (fun i pa => prev_set pa i (head_ sl)) prev in
      Ok (prev,
          logged (mkSkipList (nodes sl) (head_ sl) height (rnd_ sl) (stores sl))
                 (StoreMaxHeight height memory_order_relaxed))
    else Ok (prev, sl) in
  let '(x, sl) := NewNode k height sl in
  for_up (Z.to_nat (height - 0)) 0 (splice prev x) sl.

(** What [Contains] hands back: a [bool], or the value of a name. *)
Inductive returned : Set :=
| ret_bool (b : bool)
| ret_name (id : string).

(** [x != nullptr && Equal(key, x->key)] *)
Definition found_equal (sl : SkipList) (k : Key) (x : NodePtr) : outcome bool :=
  match x with
  | None => Ok false
  | Some _ => let* nd := deref sl x in Ok (Equal k (key nd))
  end.

(** The else-branch reads [return flase;]: the name [flase], not the
    literal [false]. *)
Definition Contains (fuel : nat) (k : Key) (sl : SkipList) : outcome returned :=
  let* (x, _) := FindGreaterOrEqual fuel sl k None in
  let* c := found_equal sl k x in
  if c then Ok (ret_bool true) else Ok (ret_name "flase").

End Definitions.

(** *** SkipList::Iterator *)

Module Iterator.
Section Definitions.
Context {P : Params}.

(** The cursor.  Its [list_] is the list the iterator was made for: the
    operations below receive that list's current state as [sl]. *)
Record Iterator : Set := mkIterator {
  node_ : NodePtr
}.

Definition Iterator_new (list : SkipList) : Iterator :=
  {| node_ := None |}.

(** [node_ != nullptr] *)
Definition Valid (it : Iterator) : bool :=
  match node_ it with
  | None => false
  | Some _ => true
  end.

Definition key (sl : SkipList) (it : Iterator) : outcome Key :=
  let* _ := assert (Ok (Valid it)) in
  let* nd := deref sl (node_ it) in
  Ok (SkipList.key nd).

(** The body is [return node_->Next(0);]: the successor is loaded and
    handed to the [return]; [node_] is not assigned. *)
Definition Next (sl : SkipList) (it : Iterator) : outcome Iterator :=
  let* _ := assert (Ok (Valid it)) in
  let* _ := SkipList.Next sl (node_ it) 0 in
  Ok it.

(** The body is [node_ = FindGreaterOrEqual(key, nullptr);]: the search
    is the list's (the source leaves out [list_->]), the name passed is
    [key], the iterator's accessor, and [target] is not used. *)
Definition Seek (fuel : nat) (sl : SkipList) (target : Key) (it : Iterator) : outcome Iterator :=
  let* k := key sl it in
  let* (x, _) := FindGreaterOrEqual fuel sl k None in
  Ok {| node_ := x |}.

Definition SeekToFirst (sl : SkipList) (it : Iterator) : outcome Iterator :=
  let* x := SkipList.Next sl (head_ sl) 0 in
  Ok {| node_ := x |}.

(** [Prev]: the search is the list's (the source leaves out [list_->]). *)
Definition Prev (fuel : nat) (sl : SkipList) (it : Iterator) : outcome Iterator :=
  let* _ := assert (Ok (Valid it)) in
  let* nd := deref sl (node_ it) in
  let* x := FindLessThan fuel sl (SkipList.key nd) in
  Ok {| node_ := if ptr_eqb x (head_ sl) then None else x |}.

(** [SeekToLast]: likewise written without [list_->]. *)
Definition SeekToLast (fuel : nat) (sl : SkipList) (it : Iterator) : outcome Iterator :=
  let* x := FindLast fuel sl in
  Ok {| node_ := if ptr_eqb x (head_ sl) then None else x |}.

End Definitions.
End Iterator.

(** *** Reading a list back *)

Section Views.
Context {P : Params}.

(** Number of forward pointers of the node at [a]. *)
Definition height (sl : SkipList) (a : nat) : nat :=
  match nodes sl !! a with
  | Some nd => length (next_ nd)
  | None => O
  end.

(** Key of the node at [a] ([Key(0)] where there is no node). *)
Definition key_at (sl : SkipList) (a : nat) : Key :=
  match nodes sl !! a with
  | Some nd => key nd
  | None => Key_of_int 0
  end.

(** The slot [next_[n]] of the node at [a], when it exists and was written. *)
Definition slot (sl : SkipList) (n : nat) (a : nat) : option NodePtr :=
  match nodes sl !! a with
  | Some nd => match next_ nd !! n with
               | Some (Some p) => Some p
               | _ => None
               end
  | None => None
  end.

(** The nodes met from [x] on by following [next_[n]] up to [nullptr]. *)
Fixpoint walk (fuel : nat) (sl : SkipList) (n : nat) (x : NodePtr) : list nat :=
  match fuel, x with
  | S fuel', Some a =>
      a :: match slot sl n a with
           | Some nx => walk fuel' sl n nx
           | None => []
           end
  | _, _ => []
  end.

(** The chain of level [n] behind the head, and its keys. *)
Definition chain (sl : SkipList) (n : nat) : list nat :=
  match head_ sl with
  | Some h => match slot sl n h with
              | Some x => walk (length (nodes sl)) sl n x
              | None => []
              end
  | None => []
  end.

Definition keys (sl : SkipList) : list Key := key_at sl <$> chain sl 0.

(** Runs [Insert] on the keys of [ks], first to last. *)
Fixpoint insert_all (fuel : nat) (ks : list Key) (sl : SkipList) : outcome SkipList :=
  match ks with
  | [] => Ok sl
  | k :: ks' => let* sl' := Insert fuel k sl in insert_all fuel ks' sl'
  end.

(** A client's backward scan: [for (; it.Valid(); it.Prev()) out.push_back(it.key());]
    run for at most [rounds] rounds. *)
Fixpoint scan_backward (rounds fuel : nat) (sl : SkipList) (it : Iterator.Iterator)
  : outcome (list Key) :=
  match rounds with
  | O => Fault OutOfFuel
  | S rounds' =>
      if Iterator.Valid it then
        let* k := Iterator.key sl it in
        let* it' := Iterator.Prev fuel sl it in
        let* ks := scan_backward rounds' fuel sl it' in
        Ok (k :: ks)
      else Ok []
  end.

(** A client's forward scan: [for (; it.Valid(); it.Next()) out.push_back(it.key());]
    run for at most [rounds] rounds. *)
Fixpoint scan_forward (rounds : nat) (sl : SkipList) (it : Iterator.Iterator)
  : outcome (list Key) :=
  match rounds with
  | O => Fault OutOfFuel
  | S rounds' =>
      if Iterator.Valid it then
        let* k := Iterator.key sl it in
        let* it' := Iterator.Next sl it in
        let* ks := scan_forward rounds' sl it' in
        Ok (k :: ks)
      else Ok []
  end.

(** The last node of [l] as a pointer, the head when [l] is empty. *)
Definition last_or_head (sl : SkipList) (l : list nat) : NodePtr :=
  match last l with
  | Some a => Some a
  | None => head_ sl
  end.

(** The nodes other than the head whose key compares equal to [k]. *)
Definition nodes_with_key (sl : SkipList) (k : Key) : list Node :=
  filter (fun nd => Equal k (key nd) = true) (drop 1 (nodes sl)).

(** From the spec's words ("start at height 1; while height is below the
    maximum and a biased draw with branching factor 4 succeeds, increment
    height"): how many draws succeed in a row, at most [limit] of them
    being made, and the generator they leave behind. *)
Fixpoint successful_draws (limit : nat) (r : Random) : nat * Random :=
  match limit with
  | O => (O, r)
  | S limit' =>
      let '(drawn, r') := OneIn 4 r in
      if drawn then
        let '(m, r'') := successful_draws limit' r' in (S m, r'')
      else (O, r')
  end.

(** The comparator orders the keys strictly and totally: the sign flips
    with the arguments, "less" is transitive, and only a key itself
    compares equal to it. *)
Definition strict_total_order : Prop :=
  (forall a b, compare_ a b < 0 <-> 0 < compare_ b a) /\
  (forall a b c, compare_ a b < 0 -> compare_ b c < 0 -> compare_ a c < 0) /\
  (forall a b, compare_ a b = 0 -> a = b).

Definition before (a b : Key) : Prop := compare_ a b < 0.

(** [l] is what following the pointers [f] from [p] meets before [nullptr]. *)
Fixpoint linked (f : nat -> option NodePtr) (p : nat) (l : list nat) : Prop :=
  match l with
  | [] => f p = Some None
  | b :: l' => f p = Some (Some b) /\ linked f b l'
  end.

(** The nodes of [l] that have a forward pointer at level [n]. *)
Definition above (sl : SkipList) (n : nat) (l : list nat) : list nat :=
  filter (fun a => (n < height sl a)%nat) l.

(** The last node of [l], the head (node 0) when [l] is empty. *)
Definition pred_of (l : list nat) : nat := default O (last l).

(** A well-formed list whose nodes are, in level-0 order, [c]: the head
    is node 0 with twelve levels; every other node is on the chain and
    is no taller than the height hint; on each level the pointers link
    exactly the nodes tall enough, in chain order, ending in [nullptr];
    the keys along the chain increase strictly. *)
Record Inv (sl : SkipList) (c : list nat) : Prop := mkInv {
  inv_head : head_ sl = Some O;
  inv_head_height : height sl O = 12%nat;
  inv_max : 1 <= max_height_ sl <= 12;
  inv_nodes : Forall (fun a => (0 < a < length (nodes sl))%nat /\
                               (1 <= height sl a)%nat /\
                               Z.of_nat (height sl a) <= max_height_ sl) c;
  inv_links : forall n, (n < 12)%nat -> linked (slot sl n) O (above sl n c);
  inv_sorted : StronglySorted (fun a b => before (key_at sl a) (key_at sl b)) c;
  inv_all : c ≡ₚ seq 1 (length (nodes sl) - 1)
}.

(** The lists a program can hold: a fresh one, and what [Insert] returns
    when it is called, as its contract demands, with a key that is not
    in the list. *)
Inductive reachable : SkipList -> Prop :=
| reachable_new sl :
    SkipList_new = Ok sl -> reachable sl
| reachable_Insert fuel k sl sl' :
    reachable sl -> k ∉ keys sl -> Insert fuel k sl = Ok sl' -> reachable sl'.

(** [s'] differs from [s] in forward pointers and the log at most. *)
Definition frame (s s' : SkipList) : Prop :=
  length (nodes s') = length (nodes s) /\ head_ s' = head_ s /\
  max_height_ s' = max_height_ s /\ rnd_ s' = rnd_ s /\
  (forall b, key_at s' b = key_at s b) /\ (forall b, height s' b = height s b).

(** The splice loop of [Insert] at work on the state [s0] in which node
    [n] was just allocated; [pj j] is the predecessor on level [j] and
    [sj j] what it points at. *)
Section Spliced.
Variables (s0 : SkipList) (n : nat) (pj : nat -> nat) (sj : nat -> NodePtr).

(** Slot [j] of node [a] once level [j] has been spliced. *)
Definition spliced_slot (j a : nat) : option NodePtr :=
  if decide (a = pj j) then Some (Some n)
  else if decide (a = n) then Some (sj j)
  else slot s0 j a.

(** The two writes of level [j], in program order. *)
Definition splice_stores (j : nat) : list event :=
  [StoreNext n (Z.of_nat j) (sj j) memory_order_relaxed;
   StoreNext (pj j) (Z.of_nat j) (Some n) memory_order_release].

(** The state after the levels below [m] have been spliced. *)
Definition spliced (m : nat) (s : SkipList) : Prop :=
  frame s0 s /\
  stores s = stores s0 ++ flat_map splice_stores (seq 0 m) /\
  (forall j a, slot s j a = if decide (j < m)%nat then spliced_slot j a else slot s0 j a).

End Spliced.

End Views.

Arguments Node : clear implicits.
Arguments SkipList : clear implicits.

(** *** An instance to run the code on

    Integer keys under the usual order, a debug build, and a
    Lehmer generator ([seed * 16807 mod (2^31 - 1)]) for the draws. *)

Definition lehmer_seed (s : Z) : Z :=
  let s := Z.land s 0x7fffffff in
  if (s =? 0) || (s =? 2147483647) then 1 else s.

Definition lehmer_one_in (n : Z) (s : Z) : bool * Z :=
  let s' := (s * 16807) mod 2147483647 in
  (s' mod n =? 0, s').

Definition Z_compare (a b : Z) : Z :=
  if a <? b then -1 else if a =? b then 0 else 1.

Definition ZParams (ndebug : bool) : Params :=
  {| Key := Z;
     compare_ := Z_compare;
     Key_of_int := fun z => z;
     Random := Z;
     Random_new := lehmer_seed;
     OneIn := lehmer_one_in;
     NDEBUG := ndebug |}.

(** The list of the spec's example: 5, 1, 9, 3 inserted into a fresh
    list, in a debug build. *)
Definition run_sample : outcome (SkipList (ZParams false)) :=
  let* sl0 := SkipList_new in insert_all (P := ZParams false) 16 [5; 1; 9; 3] sl0.

Definition sample : SkipList (ZParams false) :=
  Eval vm_compute in
    match run_sample with
    | Ok sl => sl
    | Fault _ => mkSkipList (P := ZParams false) [] None 0 (lehmer_seed 0) []
    end.

(** The same list in a build with [NDEBUG]. *)
Definition sample_release : SkipList (ZParams true) :=
  Eval vm_compute in
    match (let* sl0 := SkipList_new in insert_all (P := ZParams true) 16 [5; 1; 9; 3] sl0) with
    | Ok sl => sl
    | Fault _ => mkSkipList (P := ZParams true) [] None 0 (lehmer_seed 0) []
    end.

End SkipList.

(** * Properties of the arena *)

Module ArenaFacts.
Import Arena.

Local Open Scope N_scope.

Lemma wf_new : wf Arena_new.
Proof. reflexivity. Qed.

Lemma in_range_inv b o p n :
  in_range b o (p, n) -> exists o', p = Ptr b o' /\ o' <= o < o' + n.
Proof. intros [o' [Hp Ho]]. exists o'. simpl in *. auto. Qed.

Ltac range_inv :=
  repeat match goal with
         | H : in_range _ _ (_, _) |- _ => apply in_range_inv in H; destruct H as (? & ? & ?)
         end.

Lemma quarter_block : kBlockSize / 4 = 1024.
Proof. reflexivity. Qed.

(** What a fallback does to a well-formed arena. *)
Lemma AllocateFallback_step bytes a p a' :
  wf a -> AllocateFallback bytes a = (p, a') ->
  wf a' /\ behind a' (p, bytes) /\
  (forall r0, behind a r0 -> behind a' r0 /\ ~ overlap r0 (p, bytes)).
Proof.
  unfold AllocateFallback, AllocateNewBlock. rewrite quarter_block.
  intros Hwf Heq. destruct (N.ltb_spec 1024 bytes) as [Hbig | Hsmall];
    inversion Heq; subst; clear Heq.
  - (* a block of its own: the cursor stays where it was *)
    split; [| split].
    + unfold wf in *; simpl. destruct (alloc_ptr_ a) as [| b o]; [done |].
      destruct Hwf as (sz & Hsz & Hle). exists sz. split; [| done].
      rewrite lookup_app_l; [done |]. by eapply lookup_lt_Some.
    + intros b o Hin. range_inv. simplify_eq. simpl. split.
      * rewrite length_app. simpl. lia.
      * intros co Hco. unfold wf in Hwf. rewrite Hco in Hwf.
        destruct Hwf as (sz & Hsz & _). apply lookup_lt_Some in Hsz. lia.
    + intros r0 Hr0. split.
      * intros b o Hin. destruct (Hr0 b o Hin) as [Hlen Hcur]. simpl. split; [| done].
        rewrite length_app. simpl. lia.
      * intros (b & o & Hin0 & Hin). destruct (Hr0 b o Hin0) as [Hlen _].
        range_inv. simplify_eq. lia.
  - (* a new standard block: the cursor moves to it *)
    split; [| split].
    + unfold wf; simpl. exists kBlockSize. split.
      * rewrite lookup_app_r; [| done]. by rewrite Nat.sub_diag.
      * unfold kBlockSize. lia.
    + intros b o Hin. range_inv. simplify_eq. simpl. split.
      * rewrite length_app. simpl. lia.
      * intros co Hco. simplify_eq. lia.
    + intros r0 Hr0. split.
      * intros b o Hin. destruct (Hr0 b o Hin) as [Hlen Hcur]. simpl. split.
        -- rewrite length_app. simpl. lia.
        -- intros co Hco. simplify_eq. lia.
      * intros (b & o & Hin0 & Hin). destruct (Hr0 b o Hin0) as [Hlen _].
        range_inv. simplify_eq. lia.
Qed.

(** Serving [bytes] bytes from the cursor after skipping [slop] bytes. *)
Lemma bump_step slop bytes a :
  wf a -> slop + bytes <= alloc_bytes_remaining_ a ->
  let a' := {| alloc_ptr_ := ptr_add (alloc_ptr_ a) (slop + bytes);
               alloc_bytes_remaining_ := alloc_bytes_remaining_ a - (slop + bytes);
               blocks := blocks a;
               memory_usage_ := memory_usage_ a |} in
  wf a' /\ behind a' (ptr_add (alloc_ptr_ a) slop, bytes) /\
  (forall r0, behind a r0 ->
     behind a' r0 /\ ~ overlap r0 (ptr_add (alloc_ptr_ a) slop, bytes)).
Proof.
  intros Hwf Hfit a'. subst a'. unfold wf, behind in *. simpl.
  destruct (alloc_ptr_ a) as [| cb co] eqn:Hptr; simpl.
  - split; [lia |]. split.
    + intros b o Hin. range_inv. discriminate.
    + intros r0 Hr0. split.
      * intros b o Hin. destruct (Hr0 b o Hin) as [Hlen _]. split; [done | intros; discriminate].
      * intros (b & o & _ & Hin). range_inv. discriminate.
  - destruct Hwf as (sz & Hsz & Hle). split; [| split].
    + exists sz. split; [done | lia].
    + intros b o Hin. range_inv. simplify_eq. split.
      * by eapply lookup_lt_Some.
      * intros co' Hco'. simplify_eq. lia.
    + intros r0 Hr0. split.
      * intros b o Hin. destruct (Hr0 b o Hin) as [Hlen Hcur]. split; [done |].
        intros co' Hco'. simplify_eq. specialize (Hcur co eq_refl). lia.
      * intros (b & o & Hin0 & Hin). destruct (Hr0 b o Hin0) as [_ Hcur].
        range_inv. simplify_eq. specialize (Hcur co eq_refl). lia.
Qed.

Lemma perform_step c a r a' :
  wf a -> perform c a = (r, a') ->
  wf a' /\ behind a' r /\ (forall r0, behind a r0 -> behind a' r0 /\ ~ overlap r0 r).
Proof.
  intros Hwf Hrun. destruct c as [bytes | bytes]; simpl in Hrun.
  - destruct (Allocate bytes a) as [p a1] eqn:Hcall. inversion Hrun; subst; clear Hrun.
    unfold Allocate in Hcall.
    destruct (N.leb_spec bytes (alloc_bytes_remaining_ a)) as [Hfit | Hnot].
    + inversion Hcall; subst; clear Hcall.
      pose proof (bump_step 0 bytes a Hwf) as Hstep. simpl in Hstep.
      rewrite !N.add_0_l in Hstep.
      assert (ptr_add (alloc_ptr_ a) 0 = alloc_ptr_ a) as Hz.
      { destruct (alloc_ptr_ a); simpl; [done | by rewrite N.add_0_r]. }
      rewrite Hz in Hstep. by apply Hstep.
    + by eapply AllocateFallback_step.
  - destruct (AllocateAligned bytes a) as [p a1] eqn:Hcall. inversion Hrun; subst; clear Hrun.
    unfold AllocateAligned in Hcall.
    set (slop := if ptr_off (alloc_ptr_ a) mod kAlign =? 0 then 0
                 else kAlign - ptr_off (alloc_ptr_ a) mod kAlign) in *.
    destruct (N.leb_spec (bytes + slop) (alloc_bytes_remaining_ a)) as [Hfit | Hnot].
    + inversion Hcall; subst; clear Hcall.
      pose proof (bump_step slop bytes a Hwf) as Hstep. simpl in Hstep.
      rewrite (N.add_comm bytes slop). apply Hstep. lia.
    + by eapply AllocateFallback_step.
Qed.

Lemma run_apart cs : forall a rs a',
  wf a -> run cs a = (rs, a') ->
  wf a' /\ Forall (behind a') rs /\ pairwise_apart rs /\
  (forall r0, behind a r0 -> behind a' r0 /\ Forall (fun r => ~ overlap r0 r) rs).
Proof.
  induction cs as [| c cs IH]; intros a rs a' Hwf Hrun; simpl in Hrun.
  - inversion Hrun; subst. split; [done |]. split; [constructor |].
    split; [done |]. intros r0 Hr0. split; [done | constructor].
  - destruct (perform c a) as [r a1] eqn:Hc.
    destruct (run cs a1) as [rs1 a2] eqn:Hcs.
    inversion Hrun; subst; clear Hrun.
    destruct (perform_step _ _ _ _ Hwf Hc) as (Hwf1 & Hr & Hold).
    destruct (IH _ _ _ Hwf1 Hcs) as (Hwf2 & Hall & Hpw & Hkeep).
    destruct (Hkeep r Hr) as [Hr2 Hr_apart].
    split; [done |]. split; [by constructor |]. split; [by split |].
    intros r0 Hr0. destruct (Hold r0 Hr0) as [H1 Hn].
    destruct (Hkeep r0 H1) as [H2 Hrest]. split; [done | by constructor].
Qed.

Lemma pairwise_apart_lookup rs : pairwise_apart rs ->
  forall i j r1 r2, (i < j)%nat -> rs !! i = Some r1 -> rs !! j = Some r2 -> ~ overlap r1 r2.
Proof.
  induction rs as [| r rs IH]; intros Hpw i j r1 r2 Hij H1 H2; [done |].
  destruct Hpw as [Hhd Htl]. destruct j as [| j]; [lia |]. destruct i as [| i]; simpl in *.
  - simplify_eq. rewrite Forall_forall in Hhd. apply Hhd. by eapply list_elem_of_lookup_2.
  - apply (IH Htl i j); [lia | done | done].
Qed.

Lemma overlap_sym r1 r2 : overlap r1 r2 -> overlap r2 r1.
Proof. intros (b & o & H1 & H2). by exists b, o. Qed.

(** C8.  When the active block has at least [bytes] bytes left,
    [Allocate] returns the cursor and moves it on by [bytes]; otherwise
    it hands the request to the fallback.  Whatever sequence of
    [Allocate] and [AllocateAligned] calls a fresh arena serves, no two
    of the ranges it returned share a byte. *)
Theorem Allocate_bumps_or_falls_back_and_ranges_are_apart :
  (forall bytes a, bytes <= alloc_bytes_remaining_ a ->
     Allocate bytes a =
       (alloc_ptr_ a,
        mkArena (ptr_add (alloc_ptr_ a) bytes) (alloc_bytes_remaining_ a - bytes)
                (blocks a) (memory_usage_ a))) /\
  (forall bytes a, alloc_bytes_remaining_ a < bytes ->
     Allocate bytes a = AllocateFallback bytes a) /\
  (forall cs i j r1 r2, i <> j ->
     (run cs Arena_new).1 !! i = Some r1 ->
     (run cs Arena_new).1 !! j = Some r2 ->
     ~ overlap r1 r2).
Proof.
  split; [| split].
  - intros bytes a Hfit. unfold Allocate.
    destruct (N.leb_spec bytes (alloc_bytes_remaining_ a)); [done | lia].
  - intros bytes a Hnot. unfold Allocate.
    destruct (N.leb_spec bytes (alloc_bytes_remaining_ a)); [lia | done].
  - intros cs i j r1 r2 Hij H1 H2.
    destruct (run cs Arena_new) as [rs a'] eqn:Hrun. simpl in *.
    destruct (run_apart cs _ _ _ wf_new Hrun) as (_ & _ & Hpw & _).
    destruct (Nat.lt_total i j) as [Hlt | [Heq | Hgt]]; [| done |].
    + by eapply (pairwise_apart_lookup rs Hpw i j).
    + intros Hov. apply overlap_sym in Hov. revert Hov.
      by eapply (pairwise_apart_lookup rs Hpw j i).
Qed.

(** A run: small requests share a block, a large one gets its own, and
    the aligned request skips to the next multiple of eight. *)
Example run_of_four_calls :
  (run [CallAllocate 3; CallAllocateAligned 16; CallAllocate 5000; CallAllocate 5] Arena_new).1
  = [(Ptr 0 0, 3); (Ptr 0 8, 16); (Ptr 1 0, 5000); (Ptr 0 24, 5)].
Proof. reflexivity. Qed.

End ArenaFacts.

(** * Properties of the skip list *)

Module SkipListFacts.
Import SkipList.

Local Open Scope Z_scope.

Section Facts.
Context {P : Params}.

Lemma assert_true : assert (Ok true) = Ok tt.
Proof. unfold assert. by destruct NDEBUG. Qed.

(** ** RandomHeight *)

Lemma successful_draws_le limit : forall r, ((successful_draws limit r).1 <= limit)%nat.
Proof.
  induction limit as [| limit IH]; intros r; simpl; [lia |].
  destruct (OneIn 4 r) as [[] r']; simpl; [| lia].
  specialize (IH r'). destruct (successful_draws limit r') as [m r'']. simpl in *. lia.
Qed.

Lemma RandomHeight_loop_draws limit : forall fuel height r,
  Z.of_nat limit = kMaxHeight - height -> (limit < fuel)%nat ->
  RandomHeight_loop fuel height r =
    Ok (height + Z.of_nat (successful_draws limit r).1, (successful_draws limit r).2).
Proof.
  unfold kMaxHeight.
  induction limit as [| limit IH]; intros fuel height r Hlimit Hfuel;
    (destruct fuel as [| fuel]; [lia |]); simpl.
  - destruct (Z.ltb_spec height kMaxHeight) as [Hlt | _]; [unfold kMaxHeight in Hlt; lia |].
    by rewrite Z.add_0_r.
  - destruct (Z.ltb_spec height kMaxHeight) as [_ | Hge]; [| unfold kMaxHeight in Hge; lia].
    unfold kBranching. destruct (OneIn 4 r) as [[] r']; simpl.
    + rewrite (IH fuel (height + 1) r'); [| lia | lia].
      destruct (successful_draws limit r') as [m r'']. simpl. f_equal. f_equal. lia.
    + by rewrite Z.add_0_r.
Qed.

Lemma RandomHeight_draws (sl : SkipList P) :
  RandomHeight sl =
    Ok (1 + Z.of_nat (successful_draws 11 (rnd_ sl)).1,
        with_rnd sl (successful_draws 11 (rnd_ sl)).2).
Proof.
  pose proof (successful_draws_le 11 (rnd_ sl)) as Hle. unfold RandomHeight.
  rewrite (RandomHeight_loop_draws 11); [| done | unfold kMaxHeight; lia].
  destruct (successful_draws 11 (rnd_ sl)) as [m r]. unfold bind, kMaxHeight. simpl in *.
  replace (0 <? 1 + Z.of_nat m) with true by (symmetry; apply Z.ltb_lt; lia).
  replace (1 + Z.of_nat m <=? 12) with true by (symmetry; apply Z.leb_le; lia).
  by rewrite assert_true.
Qed.

(** C7.  [RandomHeight] always returns: its value is one more than the
    number of draws with branching factor 4 that succeed in a row, no
    more than eleven draws being made (the height starts at 1 and stops
    growing at 12), and it lies between 1 and 12. *)
Theorem RandomHeight_between_1_and_12 (sl : SkipList P) :
  RandomHeight sl =
    Ok (1 + Z.of_nat (successful_draws 11 (rnd_ sl)).1,
        with_rnd sl (successful_draws 11 (rnd_ sl)).2) /\
  1 <= 1 + Z.of_nat (successful_draws 11 (rnd_ sl)).1 <= 12.
Proof.
  pose proof (successful_draws_le 11 (rnd_ sl)) as Hle.
  split; [apply RandomHeight_draws | lia].
Qed.

(** ** The iterator *)

(** C10.  A fresh iterator is on no node: [Valid()] is false before any
    seek. *)
Theorem Iterator_new_not_Valid (sl : SkipList P) :
  Iterator.Valid (Iterator.Iterator_new sl) = false.
Proof. reflexivity. Qed.

(** ** Reading nodes *)

Lemma Next_slot (sl : SkipList P) a n p :
  slot sl n a = Some p -> Next sl (Some a) (Z.of_nat n) = Ok p.
Proof.
  unfold slot, Next, load_next, deref. intros Hslot.
  replace (0 <=? Z.of_nat n) with true by (symmetry; apply Z.leb_le; lia).
  rewrite assert_true. simpl.
  destruct (nodes sl !! a) as [nd |]; [| done]. simpl.
  destruct (Z.ltb_spec (Z.of_nat n) 0); [lia |]. rewrite Nat2Z.id.
  destruct (next_ nd !! n) as [[q |] |]; by simplify_eq.
Qed.

Lemma NoBarrier_Next_slot (sl : SkipList P) a n p :
  slot sl n a = Some p -> NoBarrier_Next sl (Some a) (Z.of_nat n) = Ok p.
Proof.
  unfold slot, NoBarrier_Next, load_next, deref. intros Hslot.
  replace (0 <=? Z.of_nat n) with true by (symmetry; apply Z.leb_le; lia).
  rewrite assert_true. simpl.
  destruct (nodes sl !! a) as [nd |]; [| done]. simpl.
  destruct (Z.ltb_spec (Z.of_nat n) 0); [lia |]. rewrite Nat2Z.id.
  destruct (next_ nd !! n) as [[q |] |]; by simplify_eq.
Qed.

Lemma deref_key_at (sl : SkipList P) a :
  (a < length (nodes sl))%nat ->
  exists nd, nodes sl !! a = Some nd /\ deref sl (Some a) = Ok nd /\ key nd = key_at sl a.
Proof.
  intros Hlt. destruct (lookup_lt_is_Some_2 _ _ Hlt) as [nd Hnd].
  exists nd. unfold deref, key_at. by rewrite Hnd.
Qed.

Lemma KeyIsAfterNode_node (sl : SkipList P) k b :
  (b < length (nodes sl))%nat ->
  KeyIsAfterNode sl k (Some b) = Ok (compare_ (key_at sl b) k <? 0).
Proof.
  intros Hlt. destruct (deref_key_at sl b Hlt) as (nd & _ & Hderef & Hkey).
  unfold KeyIsAfterNode. rewrite Hderef. simpl. by rewrite Hkey.
Qed.

(** ** Chains *)

Lemma pred_of_snoc l x : pred_of (l ++ [x]) = x.
Proof. unfold pred_of. by rewrite last_snoc. Qed.

Lemma pred_of_elem l : l <> [] -> pred_of l ∈ l.
Proof.
  intros Hne. destruct (last l) as [x |] eqn:Hlast.
  - unfold pred_of. rewrite Hlast. simpl. by apply last_Some_elem_of.
  - by apply last_None in Hlast.
Qed.

Lemma linked_ext (f g : nat -> option NodePtr) l : forall p,
  (forall a, a ∈ p :: l -> f a = g a) -> linked f p l -> linked g p l.
Proof.
  induction l as [| b l IH]; intros p Hfg; simpl.
  - rewrite <- (Hfg p); [done | set_solver].
  - intros [Hfp Hl]. split.
    + rewrite <- (Hfg p); [done | set_solver].
    + apply IH; [| done]. intros a Hin. apply Hfg. set_solver.
Qed.

Lemma default_last_cons (p b : nat) l : default p (last (b :: l)) = default b (last l).
Proof.
  destruct l as [| b' l]; [done |]. rewrite last_cons_cons.
  destruct (last (b' :: l)) eqn:Hlast; [done |]. by apply last_None in Hlast.
Qed.

(** In a chain, the node before the second part points at its first node. *)
Lemma linked_middle (f : nat -> option NodePtr) l1 l2 : forall p,
  linked f p (l1 ++ l2) -> f (default p (last l1)) = Some (head l2).
Proof.
  induction l1 as [| b l1 IH]; intros p; simpl.
  - destruct l2 as [| c l2]; simpl; [done | by intros [? _]].
  - intros [_ Hl]. rewrite default_last_cons. by apply IH.
Qed.

(** Splicing [n] in behind the first part of a chain: the last node of
    that part (or the start) now points at [n], and [n] at what that
    node pointed at. *)
Lemma linked_splice (f g : nat -> option NodePtr) n l1 l2 : forall p,
  linked f p (l1 ++ l2) -> NoDup (p :: l1 ++ l2) -> n ∉ p :: l1 ++ l2 ->
  g (default p (last l1)) = Some (Some n) ->
  g n = f (default p (last l1)) ->
  (forall a, a <> default p (last l1) -> a <> n -> g a = f a) ->
  linked g p (l1 ++ n :: l2).
Proof.
  induction l1 as [| b l1 IH]; intros p Hl Hnd Hn Hgp Hgn Hg; simpl in *.
  - split; [done |]. apply NoDup_cons in Hnd as [Hp Hnd].
    destruct l2 as [| c l2]; simpl in *.
    + by rewrite Hgn.
    + destruct Hl as [Hfp Hl]. split; [by rewrite Hgn |].
      apply (linked_ext f); [| done]. intros a Ha. symmetry. apply Hg.
      * intros ->. set_solver.
      * intros ->. set_solver.
  - destruct Hl as [Hfp Hl]. apply NoDup_cons in Hnd as [Hp Hnd].
    rewrite default_last_cons in *. split.
    + rewrite Hg; [done | | set_solver].
      intros ->. apply Hp. destruct l1 as [| b' l1]; simpl; [set_solver |].
      assert (default b (last (b' :: l1)) ∈ b' :: l1) as Hin.
      { destruct (last (b' :: l1)) as [x |] eqn:Hx; [| by apply last_None in Hx].
        simpl. by apply last_Some_elem_of. }
      set_solver.
    + apply IH; try done. set_solver.
Qed.

Lemma above_app (sl : SkipList P) n l1 l2 :
  above sl n (l1 ++ l2) = above sl n l1 ++ above sl n l2.
Proof. apply filter_app. Qed.

Lemma above_ext (sl sl' : SkipList P) n l :
  (forall a, a ∈ l -> height sl' a = height sl a) -> above sl' n l = above sl n l.
Proof.
  induction l as [| a l IH]; intros Hh; [done |]. unfold above in *.
  rewrite !filter_cons. rewrite (Hh a) by set_solver.
  rewrite IH; [done |]. intros b Hb. apply Hh. set_solver.
Qed.

Lemma above_0 (sl : SkipList P) l :
  Forall (fun a => (1 <= height sl a)%nat) l -> above sl 0 l = l.
Proof.
  induction 1 as [| a l Ha _ IH]; [done |]. unfold above in *.
  rewrite filter_cons_True by lia. by rewrite IH.
Qed.

Lemma above_tall (sl : SkipList P) n l :
  Forall (fun a => (height sl a <= n)%nat) l -> above sl n l = [].
Proof.
  induction 1 as [| a l Ha _ IH]; [done |]. unfold above in *.
  rewrite filter_cons_False by lia. by rewrite IH.
Qed.

(** The last node of [l] is tall enough, so it is also the last node of
    [l] at level [n]. *)
Lemma pred_of_above (sl : SkipList P) n l :
  (l <> [] -> (n < height sl (pred_of l))%nat) -> pred_of (above sl n l) = pred_of l.
Proof.
  destruct (last l) as [x |] eqn:Hlast.
  - apply last_Some in Hlast as [l' ->]. rewrite pred_of_snoc. intros Hx.
    rewrite above_app. unfold above at 2. rewrite filter_cons_True.
    + by rewrite filter_nil, pred_of_snoc.
    + apply Hx. by destruct l'.
  - apply last_None in Hlast as ->. done.
Qed.

(** ** FindGreaterOrEqual *)

Lemma Inv_elem (sl : SkipList P) c a : Inv sl c -> a ∈ c ->
  (0 < a < length (nodes sl))%nat /\ (1 <= height sl a)%nat /\
  Z.of_nat (height sl a) <= max_height_ sl.
Proof.
  intros HI Ha. pose proof (inv_nodes _ _ HI) as Hall. rewrite Forall_forall in Hall. auto.
Qed.

Lemma Inv_height_le (sl : SkipList P) c l : Inv sl c -> l ⊆ c -> (height sl (pred_of l) <= 12)%nat.
Proof.
  intros HI Hsub. pose proof (inv_max _ _ HI) as Hmax.
  destruct l as [| b l].
  - unfold pred_of. simpl. by rewrite (inv_head_height _ _ HI).
  - assert (pred_of (b :: l) ∈ c) as Hin by (apply Hsub, pred_of_elem; done).
    destruct (Inv_elem _ _ _ HI Hin) as (_ & _ & Hle). lia.
Qed.

(** The node the search stands on points, at its level, at the first
    node behind it that is tall enough. *)
Lemma slot_pred_of (sl : SkipList P) c lo post n : Inv sl c -> c = lo ++ post ->
  (n < height sl (pred_of lo))%nat ->
  slot sl n (pred_of lo) = Some (head (above sl n post)).
Proof.
  intros HI -> Hn.
  assert (height sl (pred_of lo) <= 12)%nat as Hle by (eapply Inv_height_le; [done | set_solver]).
  pose proof (inv_links _ _ HI n ltac:(lia)) as Hl. rewrite above_app in Hl.
  apply linked_middle in Hl. change (default O (last ?l)) with (pred_of l) in Hl.
  rewrite pred_of_above in Hl; done.
Qed.

Lemma prev_set_ok (prev : PrevArray) n x : (n < length prev)%nat ->
  prev_set prev (Z.of_nat n) x = Ok (<[n := Some x]> prev).
Proof.
  intros Hn. unfold prev_set.
  replace (0 <=? Z.of_nat n) with true by (symmetry; apply Z.leb_le; lia).
  replace (Z.of_nat n <? Z.of_nat (length prev)) with true by (symmetry; apply Z.ltb_lt; lia).
  simpl. by rewrite Nat2Z.id.
Qed.

(** What the test [KeyIsAfterNode] answers on the head of a piece of the
    chain. *)
Lemma KeyIsAfterNode_head (sl : SkipList P) c k l : Inv sl c -> l ⊆ c ->
  exists after, KeyIsAfterNode sl k (head l) = Ok after /\
    (after = true -> exists b, head l = Some b /\ before (key_at sl b) k) /\
    (after = false -> forall b, head l = Some b -> ~ before (key_at sl b) k).
Proof.
  intros HI Hsub. destruct l as [| b l].
  - exists false. split; [done |]. split; [done |]. by intros _ b.
  - assert (b ∈ c) as Hb by set_solver.
    destruct (Inv_elem _ _ _ HI Hb) as (Hlen & _).
    change (head (b :: l)) with (Some b).
    rewrite KeyIsAfterNode_node by lia. eexists. split; [done |]. unfold before. split.
    + intros Hlt%Z.ltb_lt. by exists b.
    + intros Hge%Z.ltb_ge b' [= <-]. lia.
Qed.

Lemma above_subseteq (sl : SkipList P) n l : above sl n l ⊆ l.
Proof. intros a Ha. unfold above in Ha. by apply list_elem_of_filter in Ha as [_ ?]. Qed.

Section Search.
Hypothesis Hord : strict_total_order.

Lemma before_trans a b c : before a b -> before b c -> before a c.
Proof. destruct Hord as (_ & Htrans & _). apply Htrans. Qed.

Lemma before_irrefl a : ~ before a a.
Proof.
  destruct Hord as (Hflip & _ & _). unfold before. intros H.
  pose proof (proj1 (Hflip a a) H). lia.
Qed.

Lemma FindGreaterOrEqual_loop_spec (sl : SkipList P) c k : Inv sl c ->
  forall fuel lo post level prev,
  c = lo ++ post ->
  Forall (fun a => before (key_at sl a) k) lo ->
  (level < height sl (pred_of lo))%nat ->
  (level < length prev)%nat ->
  (length post + level < fuel)%nat ->
  exists more hi prev',
    FindGreaterOrEqual_loop fuel sl k (Some (pred_of lo)) (Z.of_nat level) (Some prev)
      = Ok (head hi, Some prev') /\
    post = more ++ hi /\
    Forall (fun a => before (key_at sl a) k) more /\
    (forall b, head hi = Some b -> ~ before (key_at sl b) k) /\
    length prev' = length prev /\
    (forall n, (n <= level)%nat ->
       prev' !! n = Some (Some (Some (pred_of (above sl n (lo ++ more)))))) /\
    (forall n, (level < n)%nat -> prev' !! n = prev !! n).
Proof.
  intros HI. induction fuel as [| fuel IH]; intros lo post level prev Hc Hlo Hlevel Hprev Hfuel;
    [lia |].
  simpl. rewrite (Next_slot _ _ _ _ (slot_pred_of _ _ _ _ _ HI Hc Hlevel)). simpl.
  assert (above sl level post ⊆ c) as Hsub.
  { etrans; [apply above_subseteq |]. subst c. set_solver. }
  destruct (KeyIsAfterNode_head sl c k _ HI Hsub) as (after & -> & Hyes & Hno). simpl.
  destruct after.
  - (* the next node is still before the key: move right *)
    destruct (Hyes eq_refl) as (b & Hhead & Hb). clear Hyes Hno. rewrite Hhead.
    pose proof Hhead as Hsplit. apply head_filter_Some in Hsplit as (p1 & p2 & -> & Hp1).
    assert (level < height sl b)%nat as Hbh.
    { apply head_Some_elem_of in Hhead. unfold above in Hhead.
      by apply list_elem_of_filter in Hhead as [? _]. }
    assert (Forall (fun a => before (key_at sl a) k) (p1 ++ [b])) as Hp1k.
    { apply Forall_app. split; [| by repeat constructor].
      apply Forall_forall. intros a Ha. eapply before_trans; [| exact Hb].
      pose proof (inv_sorted _ _ HI) as Hs. rewrite Hc in Hs.
      apply StronglySorted_app_1_r in Hs.
      apply (StronglySorted_app_1_elem_of _ p1 (b :: p2) a b Hs); [done | set_solver]. }
    destruct (IH (lo ++ p1 ++ [b]) p2 level prev)
      as (more & hi & prev' & Hrun & -> & Hmore & Hhi & Hlen & Hrec & Hkeep).
    + rewrite Hc. by rewrite <- !(assoc_L (++)).
    + apply Forall_app. by split.
    + by rewrite (assoc_L (++)), pred_of_snoc.
    + done.
    + rewrite length_app in Hfuel. simpl in Hfuel. lia.
    + rewrite (assoc_L (++)), pred_of_snoc in Hrun.
      exists (p1 ++ b :: more), hi, prev'. split; [done |].
      split; [by rewrite <- (assoc_L (++)) |].
      split.
      { apply Forall_app in Hp1k as [Hp1k Hbk]. apply Forall_app. split; [done |].
        by apply Forall_cons. }
      split; [done |]. split; [done |]. split; [| done].
      intros n Hn. rewrite (Hrec n Hn). do 4 f_equal.
      by rewrite <- !(assoc_L (++)).
  - (* the next node is not before the key: record and go down *)
    specialize (Hno eq_refl). clear Hyes.
    rewrite (prev_set_ok _ _ _ Hprev). simpl.
    assert (pred_of (above sl level lo) = pred_of lo) as Hpl by (by apply pred_of_above).
    destruct level as [| level].
    + change (Z.of_nat 0 =? 0) with true. cbv iota.
      assert (above sl 0 post = post) as Hall.
      { apply above_0. pose proof (inv_nodes _ _ HI) as Hn. rewrite Hc in Hn.
        apply Forall_app in Hn as [_ Hn]. eapply Forall_impl; [exact Hn |]. naive_solver. }
      rewrite Hall in *. exists [], post, (<[O := Some (Some (pred_of lo))]> prev).
      split; [done |]. split; [done |]. split; [done |]. split; [done |].
      split; [by rewrite length_insert |]. split.
      * intros n Hn. assert (n = O) as -> by lia. rewrite (right_id_L [] (++)), Hpl.
        by rewrite list_lookup_insert_eq.
      * intros n Hn. rewrite list_lookup_insert_ne; [done | lia].
    + replace (Z.of_nat (S level) - 1) with (Z.of_nat level) by lia.
      destruct (Z.eqb_spec (Z.of_nat (S level)) 0) as [Hz | _]; [lia |].
      destruct (IH lo post level (<[S level := Some (Some (pred_of lo))]> prev))
        as (more & hi & prev' & Hrun & -> & Hmore & Hhi & Hlen & Hrec & Hkeep);
        [done | done | lia | rewrite length_insert; lia | lia |].
      exists more, hi, prev'. split; [done |]. split; [done |]. split; [done |].
      split; [done |]. split; [by rewrite Hlen, length_insert |]. split.
      * intros n Hn. destruct (decide (n = S level)) as [-> | Hne].
        -- rewrite Hkeep by lia. rewrite list_lookup_insert_eq by lia.
           do 3 f_equal. rewrite above_app.
           assert (above sl (S level) more = []) as ->.
           { destruct (above sl (S level) more) as [| b rest] eqn:Hab; [done |].
             exfalso. apply (Hno b).
             - by rewrite above_app, Hab.
             - assert (b ∈ more) as Hbm.
               { apply (above_subseteq sl (S level)). rewrite Hab. set_solver. }
               rewrite Forall_forall in Hmore. by apply Hmore. }
           by rewrite (right_id_L [] (++)), Hpl.
        -- apply Hrec. lia.
      * intros n Hn. rewrite Hkeep by lia. rewrite list_lookup_insert_ne; [done | lia].
Qed.

End Search.

(** A call with [nullptr] for the out-array finds the same node. *)
Lemma FindGreaterOrEqual_loop_nullptr (sl : SkipList P) k fuel : forall x level prev r,
  FindGreaterOrEqual_loop fuel sl k x level (Some prev) = Ok r ->
  FindGreaterOrEqual_loop fuel sl k x level None = Ok (r.1, None).
Proof.
  induction fuel as [| fuel IH]; intros x level prev r; simpl; [done |].
  destruct (Next sl x level) as [next |]; simpl; [| done].
  destruct (KeyIsAfterNode sl k next) as [[] |]; simpl; [by apply IH | | done].
  destruct (prev_set prev level x) as [prev' |]; simpl; [| done].
  destruct (level =? 0); [by intros [= <-] | by apply IH].
Qed.

Section Search2.
Hypothesis Hord : strict_total_order.

(** On a well-formed list the search returns, and what it returns is the
    first node of the chain that is not before the key; with an
    out-array, entry [n] below the height hint receives the last node of
    level [n] that is before the key (the head when there is none). *)
Lemma FindGreaterOrEqual_spec (sl : SkipList P) c k fuel prev : Inv sl c ->
  (12 <= length prev)%nat ->
  (length c + Z.to_nat (max_height_ sl) <= fuel)%nat ->
  exists lo hi prev',
    FindGreaterOrEqual fuel sl k (Some prev) = Ok (head hi, Some prev') /\
    FindGreaterOrEqual fuel sl k None = Ok (head hi, None) /\
    c = lo ++ hi /\
    Forall (fun a => before (key_at sl a) k) lo /\
    Forall (fun a => ~ before (key_at sl a) k) hi /\
    length prev' = length prev /\
    (forall n, Z.of_nat n < max_height_ sl ->
       prev' !! n = Some (Some (Some (pred_of (above sl n lo))))) /\
    (forall n, max_height_ sl <= Z.of_nat n -> prev' !! n = prev !! n).
Proof.
  intros HI Hprev Hfuel. pose proof (inv_max _ _ HI) as Hmax.
  destruct (FindGreaterOrEqual_loop_spec Hord sl c k HI fuel [] c
              (Z.to_nat (max_height_ sl - 1)) prev)
    as (lo & hi & prev' & Hrun & -> & Hlo & Hhi & Hlen & Hrec & Hkeep).
  - done.
  - constructor.
  - change (pred_of []) with O. rewrite (inv_head_height _ _ HI). lia.
  - lia.
  - lia.
  - change (pred_of []) with O in Hrun. rewrite Z2Nat.id in Hrun by lia.
    assert (FindGreaterOrEqual fuel sl k (Some prev) = Ok (head hi, Some prev')) as Hcall.
    { unfold FindGreaterOrEqual, GetMaxHight. by rewrite (inv_head _ _ HI). }
    exists lo, hi, prev'. split; [done |]. split.
    { unfold FindGreaterOrEqual, GetMaxHight in *. rewrite (inv_head _ _ HI) in *.
      by apply FindGreaterOrEqual_loop_nullptr in Hcall. }
    split; [done |]. split; [done |]. split.
    { destruct hi as [| b hi]; [constructor |].
      pose proof (inv_sorted _ _ HI) as Hs. apply StronglySorted_app_1_r in Hs.
      apply StronglySorted_cons in Hs as [Hb _].
      constructor; [by apply Hhi |].
      eapply Forall_impl; [exact Hb |]. intros a Hba Hak. simpl in Hba.
      apply (Hhi b eq_refl). by eapply before_trans. }
    split; [done |]. split.
    + intros n Hn. apply Hrec. lia.
    + intros n Hn. apply Hkeep. lia.
Qed.

End Search2.

(** ** Writing a forward pointer *)

Lemma frame_refl s : frame s s.
Proof. by repeat split. Qed.

Lemma frame_trans s1 s2 s3 : frame s1 s2 -> frame s2 s3 -> frame s1 s3.
Proof.
  intros (H1 & H2 & H3 & H4 & H5 & H6) (G1 & G2 & G3 & G4 & G5 & G6).
  repeat split; congruence.
Qed.

Lemma store_next_view o (s : SkipList P) a n v :
  (n < height s a)%nat ->
  exists s', store_next o s (Some a) (Z.of_nat n) v = Ok s' /\ frame s s' /\
    stores s' = stores s ++ [StoreNext a (Z.of_nat n) v o] /\
    (forall i b, slot s' i b = if decide (b = a /\ i = n) then Some v else slot s i b).
Proof.
  unfold height. intros Hn. destruct (nodes s !! a) as [nd |] eqn:Hnd; [| lia].
  unfold store_next, deref. rewrite Hnd. simpl.
  destruct (Z.ltb_spec (Z.of_nat n) 0); [lia |].
  destruct (Z.leb_spec (Z.of_nat (length (next_ nd))) (Z.of_nat n)); [lia |]. simpl.
  eexists. split; [done |]. rewrite Nat2Z.id.
  assert (a < length (nodes s))%nat as Ha by (by eapply lookup_lt_Some).
  split; [| split; [done |]].
  - unfold frame, key_at, height. simpl. rewrite length_insert.
    repeat split; try done; intros b; destruct (decide (b = a)) as [-> | Hne].
    + by rewrite list_lookup_insert_eq, Hnd.
    + by rewrite list_lookup_insert_ne.
    + rewrite list_lookup_insert_eq, Hnd by done. simpl. by rewrite length_insert.
    + by rewrite list_lookup_insert_ne.
  - intros i b. unfold slot. simpl. destruct (decide (b = a)) as [-> | Hne].
    + rewrite list_lookup_insert_eq, Hnd by done. simpl.
      destruct (decide (i = n)) as [-> | Hin].
      * rewrite decide_True by done. by rewrite list_lookup_insert_eq.
      * rewrite decide_False by naive_solver. by rewrite list_lookup_insert_ne.
    + rewrite decide_False by naive_solver. by rewrite list_lookup_insert_ne.
Qed.

Lemma SetNext_view (s : SkipList P) a n v :
  (n < height s a)%nat ->
  exists s', SetNext s (Some a) (Z.of_nat n) v = Ok s' /\ frame s s' /\
    stores s' = stores s ++ [StoreNext a (Z.of_nat n) v memory_order_release] /\
    (forall i b, slot s' i b = if decide (b = a /\ i = n) then Some v else slot s i b).
Proof.
  intros Hn. unfold SetNext.
  replace (0 <=? Z.of_nat n) with true by (symmetry; apply Z.leb_le; lia).
  rewrite assert_true. simpl. by apply store_next_view.
Qed.

Lemma NoBarrier_SetNext_view (s : SkipList P) a n v :
  (n < height s a)%nat ->
  exists s', NoBarrier_SetNext s (Some a) (Z.of_nat n) v = Ok s' /\ frame s s' /\
    stores s' = stores s ++ [StoreNext a (Z.of_nat n) v memory_order_relaxed] /\
    (forall i b, slot s' i b = if decide (b = a /\ i = n) then Some v else slot s i b).
Proof.
  intros Hn. unfold NoBarrier_SetNext.
  replace (0 <=? Z.of_nat n) with true by (symmetry; apply Z.leb_le; lia).
  rewrite assert_true. simpl. by apply store_next_view.
Qed.

(** ** Counted loops *)

Lemma for_up_invariant {S : Type} (I : nat -> S -> Prop) (body : Z -> S -> outcome S) n :
  forall i0 s,
  I i0 s ->
  (forall m s, (i0 <= m < i0 + n)%nat -> I m s ->
     exists s', body (Z.of_nat m) s = Ok s' /\ I (Datatypes.S m) s') ->
  exists s', for_up n (Z.of_nat i0) body s = Ok s' /\ I (i0 + n)%nat s'.
Proof.
  induction n as [| n IH]; intros i0 s Hs Hbody; simpl.
  - exists s. by rewrite Nat.add_0_r.
  - destruct (Hbody i0 s ltac:(lia) Hs) as (s1 & -> & Hs1). simpl.
    replace (Z.of_nat i0 + 1) with (Z.of_nat (Datatypes.S i0)) by lia.
    destruct (IH (Datatypes.S i0) s1 Hs1) as (s' & Hrun & Hs').
    + intros m s2 Hm. apply Hbody. lia.
    + exists s'. split; [done |]. by replace (i0 + Datatypes.S n)%nat with (Datatypes.S i0 + n)%nat by lia.
Qed.

Lemma prev_get_ok (prev : PrevArray) n p :
  prev !! n = Some (Some p) -> prev_get prev (Z.of_nat n) = Ok p.
Proof.
  intros Hp. unfold prev_get. destruct (Z.ltb_spec (Z.of_nat n) 0); [lia |].
  by rewrite Nat2Z.id, Hp.
Qed.

(** [for (i = i0; i < i0 + n; i++) prev[i] = x;] *)
Lemma prev_fill (prev : PrevArray) x i0 n : (i0 + n <= length prev)%nat ->
  exists prev', for_up n (Z.of_nat i0) (fun i pa => prev_set pa i x) prev = Ok prev' /\
    length prev' = length prev /\
    (forall j, (i0 <= j < i0 + n)%nat -> prev' !! j = Some (Some x)) /\
    (forall j, ~ (i0 <= j < i0 + n)%nat -> prev' !! j = prev !! j).
Proof.
  intros Hfit.
  destruct (for_up_invariant
              (fun m (pa : PrevArray) => length pa = length prev /\
                 (forall j, (i0 <= j < m)%nat -> pa !! j = Some (Some x)) /\
                 (forall j, ~ (i0 <= j < m)%nat -> pa !! j = prev !! j))
              (fun i pa => prev_set pa i x) n i0 prev) as (prev' & Hrun & Hlen & Hin & Hout).
  - split; [done |]. split; [intros j Hj; lia | done].
  - intros m pa Hm (Hlen & Hin & Hout). rewrite prev_set_ok by lia. eexists. split; [done |].
    split; [by rewrite length_insert |]. split.
    + intros j Hj. destruct (decide (j = m)) as [-> | Hne].
      * rewrite list_lookup_insert_eq; [done | lia].
      * rewrite list_lookup_insert_ne by done. apply Hin. lia.
    + intros j Hj. rewrite list_lookup_insert_ne by lia. apply Hout. lia.
  - by exists prev'.
Qed.

(** ** The splice loop of Insert *)

Section Splice.
Variables (s0 : SkipList P) (n h : nat) (pj : nat -> nat) (sj : nat -> NodePtr).
Variable prev : PrevArray.
Hypothesis Hprev : forall j, (j < h)%nat -> prev !! j = Some (Some (Some (pj j))).
Hypothesis Hpj_height : forall j, (j < h)%nat -> (j < height s0 (pj j))%nat.
Hypothesis Hn_height : height s0 n = h.
Hypothesis Hsj : forall j, (j < h)%nat -> slot s0 j (pj j) = Some (sj j).

Local Abbreviation spliced_slot := (SkipList.spliced_slot s0 n pj sj).
Local Abbreviation splice_stores := (SkipList.splice_stores n pj sj).
Local Abbreviation spliced := (SkipList.spliced s0 n pj sj).

Lemma splice_step m s : (m < h)%nat -> spliced m s ->
  exists s', splice prev (Some n) (Z.of_nat m) s = Ok s' /\ spliced (S m) s'.
Proof.
  intros Hm (Hframe & Hstores & Hslots). unfold splice.
  rewrite (prev_get_ok _ _ _ (Hprev m Hm)). simpl.
  assert (slot s m (pj m) = Some (sj m)) as Hload.
  { rewrite Hslots. rewrite decide_False by lia. by apply Hsj. }
  rewrite (NoBarrier_Next_slot _ _ _ _ Hload). simpl.
  destruct Hframe as (F1 & F2 & F3 & F4 & F5 & F6).
  destruct (NoBarrier_SetNext_view s n m (sj m)) as (s1 & -> & Hf1 & Hst1 & Hsl1).
  { rewrite F6. lia. }
  simpl. destruct Hf1 as (G1 & G2 & G3 & G4 & G5 & G6).
  destruct (SetNext_view s1 (pj m) m (Some n)) as (s2 & -> & Hf2 & Hst2 & Hsl2).
  { rewrite G6, F6. by apply Hpj_height. }
  exists s2. split; [done |]. destruct Hf2 as (K1 & K2 & K3 & K4 & K5 & K6).
  split; [| split].
  - repeat split; try congruence.
  - rewrite Hst2, Hst1, Hstores. rewrite seq_S, flat_map_app. simpl.
    by rewrite <- !(assoc_L (++)).
  - intros j a. rewrite Hsl2, Hsl1, Hslots. unfold SkipList.spliced_slot.
    destruct (decide (j = m)) as [-> | Hjm].
    + rewrite (decide_True (P := (m < S m)%nat)) by lia.
      rewrite (decide_False (P := (m < m)%nat)) by lia.
      destruct (decide (a = pj m)) as [-> | Ha]; [by rewrite decide_True |].
      rewrite decide_False by (by intros [? _]).
      destruct (decide (a = n)) as [-> | Han]; [by rewrite decide_True |].
      by rewrite decide_False by (by intros [? _]).
    + rewrite (decide_False (P := (a = pj m /\ j = m))) by (by intros [_ ?]).
      rewrite (decide_False (P := (a = n /\ j = m))) by (by intros [_ ?]).
      destruct (decide (j < m)%nat);
        [by rewrite (decide_True (P := (j < S m)%nat)) by lia
        | by rewrite (decide_False (P := (j < S m)%nat)) by lia].
Qed.

Lemma splice_all :
  exists s', for_up h 0 (splice prev (Some n)) s0 = Ok s' /\ spliced h s'.
Proof.
  destruct (for_up_invariant (fun m s => (m <= h)%nat -> spliced m s)
              (splice prev (Some n)) h O s0) as (s' & Hrun & Hs').
  - intros _. split; [apply frame_refl |]. split; [by simpl; rewrite (right_id_L [] (++)) |].
    intros j a. by rewrite decide_False by lia.
  - intros m s Hm Hs. destruct (splice_step m s) as (s' & Hrun & Hs'); [lia | apply Hs; lia |].
    exists s'. split; [done | by intros _].
  - exists s'. split; [done | apply Hs'; lia].
Qed.

End Splice.

(** ** NewNode and the splice, on a well-formed list *)

Lemma NewNode_view (s : SkipList P) k h :
  let n := length (nodes s) in
  exists s', NewNode k (Z.of_nat h) s = (Some n, s') /\
    length (nodes s') = S n /\ head_ s' = head_ s /\ max_height_ s' = max_height_ s /\
    rnd_ s' = rnd_ s /\ stores s' = stores s /\
    (forall a, key_at s' a = if decide (a = n) then k else key_at s a) /\
    (forall a, height s' a = if decide (a = n) then h else height s a) /\
    (forall j a, slot s' j a = if decide (a = n) then None else slot s j a).
Proof.
  intros n. unfold NewNode. eexists. split; [done |].
  replace (Z.to_nat (1 + (Z.of_nat h - 1))) with h by lia. simpl.
  split; [rewrite length_app; simpl; lia |]. do 4 (split; [done |]).
  assert (forall a, (nodes s ++ [mkNode k (replicate h None)]) !! a =
            if decide (a = n) then Some (mkNode k (replicate h None)) else nodes s !! a) as Hlook.
  { intros a. destruct (decide (a = n)) as [-> | Hne].
    - rewrite lookup_app_r by done. by rewrite Nat.sub_diag.
    - destruct (decide (a < n)%nat).
      + by rewrite lookup_app_l.
      + rewrite !lookup_ge_None_2; [done | subst n; lia | rewrite length_app; simpl; subst n; lia]. }
  split; [| split].
  - intros a. unfold key_at. simpl. rewrite Hlook. by destruct (decide (a = n)).
  - intros a. unfold height. simpl. rewrite Hlook.
    destruct (decide (a = n)); [simpl; by rewrite length_replicate | done].
  - intros j a. unfold slot. simpl. rewrite Hlook. destruct (decide (a = n)); [| done].
    simpl. destruct (replicate h None !! j) as [o |] eqn:Hj; [| done].
    apply lookup_replicate in Hj as [-> _]. done.
Qed.

Lemma Inv_NoDup (sl : SkipList P) c : Inv sl c -> NoDup (O :: c).
Proof.
  intros HI. pose proof (inv_all _ _ HI) as Hperm. apply NoDup_cons. split.
  - rewrite Hperm, elem_of_seq. lia.
  - rewrite Hperm. apply NoDup_seq.
Qed.

Lemma NoDup_above (sl : SkipList P) c j l : Inv sl c -> l ⊆ c -> NoDup l ->
  NoDup (O :: above sl j l).
Proof.
  intros HI Hsub Hnd. apply NoDup_cons. split.
  - intros Hin%above_subseteq%Hsub. apply (Inv_elem _ _ _ HI) in Hin. lia.
  - by apply NoDup_filter.
Qed.

Lemma pred_of_above_facts (sl : SkipList P) c lo hi j : Inv sl c -> c = lo ++ hi ->
  (j < 12)%nat ->
  let p := pred_of (above sl j lo) in
  (j < height sl p)%nat /\ (p < length (nodes sl))%nat /\
  slot sl j p = Some (head (above sl j hi)).
Proof.
  intros HI -> Hj p.
  pose proof (inv_links _ _ HI j Hj) as Hl. rewrite above_app in Hl.
  apply linked_middle in Hl. change (default O (last ?l)) with (pred_of l) in Hl.
  split; [| split; [| done]].
  - subst p. destruct (above sl j lo) as [| b l] eqn:Hab.
    + change (pred_of []) with O. rewrite (inv_head_height _ _ HI). lia.
    + assert (pred_of (b :: l) ∈ above sl j lo) as Hin by (rewrite Hab; by apply pred_of_elem).
      unfold above in Hin. by apply list_elem_of_filter in Hin as [? _].
  - unfold slot in Hl. fold p in Hl. destruct (nodes sl !! p) eqn:Hp; [| done].
    by eapply lookup_lt_Some.
Qed.

(** Allocating the node and splicing it in on levels [0 .. h-1], given
    an out-array that holds the predecessors on these levels. *)
Lemma NewNode_splice (sl s1 : SkipList P) c lo hi k h (prev : PrevArray) :
  Inv sl c -> c = lo ++ hi -> (1 <= h <= 12)%nat ->
  nodes s1 = nodes sl -> head_ s1 = head_ sl ->
  (forall j, (j < h)%nat -> prev !! j = Some (Some (Some (pred_of (above sl j lo))))) ->
  let n := length (nodes sl) in
  exists sl',
    (let '(x, s) := NewNode k (Z.of_nat h) s1 in
     for_up (Z.to_nat (Z.of_nat h - 0)) 0 (splice prev x) s) = Ok sl' /\
    length (nodes sl') = S n /\ head_ sl' = head_ sl /\
    max_height_ sl' = max_height_ s1 /\ rnd_ sl' = rnd_ s1 /\
    (forall a, key_at sl' a = if decide (a = n) then k else key_at sl a) /\
    (forall a, height sl' a = if decide (a = n) then h else height sl a) /\
    (forall j, (j < 12)%nat -> linked (slot sl' j) O (above sl' j (lo ++ n :: hi))) /\
    stores sl' = stores s1 ++
      flat_map (fun j => [StoreNext n (Z.of_nat j) (head (above sl j hi)) memory_order_relaxed;
                          StoreNext (pred_of (above sl j lo)) (Z.of_nat j) (Some n)
                            memory_order_release])
               (seq 0 h).
Proof.
  intros HI Hc Hh Hnodes Hhead Hprev n.
  assert (forall a, key_at s1 a = key_at sl a) as Hk1 by (intros a; unfold key_at; by rewrite Hnodes).
  assert (forall a, height s1 a = height sl a) as Hh1 by (intros a; unfold height; by rewrite Hnodes).
  assert (forall j a, slot s1 j a = slot sl j a) as Hs1 by (intros j a; unfold slot; by rewrite Hnodes).
  destruct (NewNode_view s1 k h) as (sN & -> & N1 & N2 & N3 & N4 & N5 & N6 & N7 & N8).
  rewrite Hnodes in N1, N6, N7, N8 |- *. fold n in N1, N6, N7, N8 |- *.
  replace (Z.to_nat (Z.of_nat h - 0)) with h by lia.
  assert (forall j, (j < h)%nat -> pred_of (above sl j lo) <> n) as Hold.
  { intros j Hj. destruct (pred_of_above_facts sl c lo hi j HI Hc ltac:(lia)) as (_ & Hlt & _).
    subst n. lia. }
  destruct (splice_all sN n h (fun j => pred_of (above sl j lo)) (fun j => head (above sl j hi)) prev)
    as (sl' & Hrun & (F1 & F2 & F3 & F4 & F5 & F6) & Hstores & Hslots).
  - done.
  - intros j Hj. rewrite N7, Hh1. rewrite decide_False by (by apply Hold).
    by destruct (pred_of_above_facts sl c lo hi j HI Hc ltac:(lia)) as (? & _ & _).
  - rewrite N7. by rewrite decide_True.
  - intros j Hj. rewrite N8, Hs1. rewrite decide_False by (by apply Hold).
    by destruct (pred_of_above_facts sl c lo hi j HI Hc ltac:(lia)) as (_ & _ & ?).
  - exists sl'. split; [done |]. split; [congruence |]. split; [congruence |].
    split; [congruence |]. split; [congruence |].
    assert (forall a, key_at sl' a = if decide (a = n) then k else key_at sl a) as Hkey.
    { intros a. rewrite F5, N6. destruct (decide (a = n)); [done | apply Hk1]. }
    assert (forall a, height sl' a = if decide (a = n) then h else height sl a) as Hheight.
    { intros a. rewrite F6, N7. destruct (decide (a = n)); [done | apply Hh1]. }
    split; [done |]. split; [done |]. split; [| by rewrite Hstores, N5].
    intros j Hj.
    assert (forall a, a ∈ c -> a <> n) as Hcn.
    { intros a Ha. apply (Inv_elem _ _ _ HI) in Ha. subst n. lia. }
    assert (forall l, l ⊆ c -> above sl' j l = above sl j l) as Habove.
    { intros l Hl. apply above_ext. intros a Ha. rewrite Hheight.
      rewrite decide_False; [done |]. apply Hcn. by apply Hl. }
    assert (0 < n)%nat as Hn0.
    { assert (height sl O = 12%nat) as H0 by apply (inv_head_height _ _ HI).
      unfold height in H0. destruct (nodes sl !! O) eqn:Hl0; [| done].
      apply lookup_lt_Some in Hl0. subst n. lia. }
    pose proof (inv_links _ _ HI j Hj) as Hl. rewrite Hc, above_app in Hl.
    pose proof (Inv_NoDup _ _ HI) as Hnd.
    assert (NoDup (O :: above sl j lo ++ above sl j hi)) as Hndj.
    { rewrite <- above_app. eapply NoDup_above; [done | by rewrite Hc |].
      rewrite <- Hc. by apply NoDup_cons in Hnd as [_ ?]. }
    assert (n ∉ O :: above sl j lo ++ above sl j hi) as Hfresh.
    { rewrite <- above_app. intros [Hz | Hin]%elem_of_cons; [lia |].
      apply above_subseteq in Hin. rewrite <- Hc in Hin. by apply (Hcn n). }
    rewrite above_app, (Habove lo) by (rewrite Hc; set_solver).
    unfold above at 2. rewrite filter_cons. fold (above sl' j hi).
    rewrite (Habove hi) by (rewrite Hc; set_solver).
    rewrite (Hheight n), (decide_True (P := n = n)) by done.
    destruct (decide (j < h)%nat) as [Hjh | Hjh].
    + (* a level the new node is on *)
      apply (linked_splice (slot sl j)); try done.
      * change (default O (last ?l)) with (pred_of l). rewrite Hslots.
        rewrite decide_True by done. unfold SkipList.spliced_slot. by rewrite decide_True.
      * change (default O (last ?l)) with (pred_of l). rewrite Hslots.
        rewrite decide_True by done. unfold SkipList.spliced_slot.
        rewrite decide_False by (intros Heq; by apply (Hold j Hjh)).
        rewrite decide_True by done.
        by destruct (pred_of_above_facts sl c lo hi j HI Hc Hj) as (_ & _ & ->).
      * change (default O (last ?l)) with (pred_of l). intros a Hap Han. rewrite Hslots.
        rewrite decide_True by done. unfold SkipList.spliced_slot.
        rewrite !decide_False by done. rewrite N8, decide_False by done. apply Hs1.
    + (* a level above the new node *)
      apply (linked_ext (slot sl j)); [| done]. intros a Ha.
      rewrite Hslots, decide_False by done. rewrite N8, Hs1.
      rewrite decide_False; [done |]. intros ->. by apply Hfresh.
Qed.

(** ** Insert *)

Section InsertSpec.
Hypothesis Hord : strict_total_order.

Lemma Equal_true_iff (a b : Key) : Equal a b = true <-> a = b.
Proof.
  destruct Hord as (Hflip & _ & Hzero). unfold Equal. rewrite Z.eqb_eq. split; [apply Hzero |].
  intros ->. destruct (Z.lt_trichotomy (compare_ b b) 0) as [Hlt | [Heq | Hgt]]; [| done |].
  - pose proof (proj1 (Hflip b b) Hlt). lia.
  - pose proof (proj2 (Hflip b b) Hgt). lia.
Qed.

(** The assertion of [Insert] holds when the key is not on the chain
    (and is not looked at under [NDEBUG]). *)
Lemma assert_absent_or_unequal (sl : SkipList P) c k hi : Inv sl c -> hi ⊆ c ->
  (NDEBUG = false -> forall b, head hi = Some b -> key_at sl b <> k) ->
  assert (absent_or_unequal sl k (head hi)) = Ok tt.
Proof.
  intros HI Hsub Habsent. unfold assert. destruct NDEBUG; [done |].
  destruct hi as [| b hi]; [done |]. change (head (b :: hi)) with (Some b).
  assert (b ∈ c) as Hb by set_solver.
  destruct (Inv_elem _ _ _ HI Hb) as (Hlen & _).
  destruct (deref_key_at sl b ltac:(lia)) as (nd & _ & Hderef & Hkey).
  unfold absent_or_unequal. rewrite Hderef. simpl. rewrite Hkey.
  destruct (Equal k (key_at sl b)) eqn:Heq; [| done].
  apply Equal_true_iff in Heq. by destruct (Habsent eq_refl b eq_refl).
Qed.

(** What a call of [Insert] does to a well-formed list, provided the
    assertion does not stop it: the key's place on the chain is found,
    a node of the drawn height is allocated behind all others and linked
    in at that place on each of its levels. *)
Lemma Insert_spec (sl : SkipList P) c k fuel :
  Inv sl c ->
  (length c + Z.to_nat (max_height_ sl) <= fuel)%nat ->
  (NDEBUG = false -> Forall (fun a => key_at sl a <> k) c) ->
  let n := length (nodes sl) in
  let h := S (successful_draws 11 (rnd_ sl)).1 in
  exists lo hi sl',
    Insert fuel k sl = Ok sl' /\
    c = lo ++ hi /\
    Forall (fun a => before (key_at sl a) k) lo /\
    Forall (fun a => ~ before (key_at sl a) k) hi /\
    length (nodes sl') = S n /\ head_ sl' = head_ sl /\
    max_height_ sl' = Z.max (max_height_ sl) (Z.of_nat h) /\
    rnd_ sl' = (successful_draws 11 (rnd_ sl)).2 /\
    (forall a, key_at sl' a = if decide (a = n) then k else key_at sl a) /\
    (forall a, height sl' a = if decide (a = n) then h else height sl a) /\
    (forall j, (j < 12)%nat -> linked (slot sl' j) O (above sl' j (lo ++ n :: hi))) /\
    stores sl' = stores sl ++
      (if max_height_ sl <? Z.of_nat h
       then [StoreMaxHeight (Z.of_nat h) memory_order_relaxed] else []) ++
      flat_map (fun j => [StoreNext n (Z.of_nat j) (head (above sl j hi)) memory_order_relaxed;
                          StoreNext (pred_of (above sl j lo)) (Z.of_nat j) (Some n)
                            memory_order_release])
               (seq 0 h).
Proof.
  intros HI Hfuel Habsent n h. pose proof (inv_max _ _ HI) as Hmax.
  destruct (FindGreaterOrEqual_spec Hord sl c k fuel (replicate 12 None) HI)
    as (lo & hi & prev1 & Hcall & _ & Hc & Hlo & Hhi & Hlen & Hrec & _);
    [by rewrite length_replicate | done |].
  rewrite length_replicate in Hlen.
  pose proof (successful_draws_le 11 (rnd_ sl)) as Hdraws. fold h in Hdraws.
  exists lo, hi. unfold Insert. change (Z.to_nat kMaxHeight) with 12%nat.
  rewrite Hcall. cbn [bind].
  rewrite (assert_absent_or_unequal sl c k hi HI).
  2: { rewrite Hc. set_solver. }
  2: { intros Hdebug b Hb. specialize (Habsent Hdebug). rewrite Forall_forall in Habsent.
       apply Habsent. rewrite Hc. apply head_Some_elem_of in Hb. set_solver. }
  cbn [bind]. rewrite RandomHeight_draws. cbn [bind].
  replace (1 + Z.of_nat (successful_draws 11 (rnd_ sl)).1) with (Z.of_nat h) by (subst h; lia).
  set (r := (successful_draws 11 (rnd_ sl)).2).
  unfold GetMaxHight. cbn [max_height_ head_ nodes rnd_ stores with_rnd].
  assert (forall j, (j < h)%nat -> Z.of_nat j < max_height_ sl \/ above sl j lo = []) as Htall.
  { intros j Hj. destruct (decide (Z.of_nat j < max_height_ sl)); [by left | right].
    apply above_tall. pose proof (inv_nodes _ _ HI) as Hn. rewrite Hc in Hn.
    apply Forall_app in Hn as [Hn _]. eapply Forall_impl; [exact Hn |].
    intros a (_ & _ & Ha). simpl. lia. }
  destruct (Z.ltb_spec (max_height_ sl) (Z.of_nat h)) as [Hgrow | Hkeep].
  - (* the new node is taller than the list so far *)
    destruct (prev_fill prev1 (head_ sl) (Z.to_nat (max_height_ sl))
                (Z.to_nat (Z.of_nat h - max_height_ sl)))
      as (prev2 & Hfill & Hlen2 & Hin & Hout); [lia |].
    rewrite Z2Nat.id in Hfill by lia. rewrite Hfill. cbn [bind].
    destruct (NewNode_splice sl
                (logged (mkSkipList (nodes sl) (head_ sl) (Z.of_nat h) r (stores sl))
                        (StoreMaxHeight (Z.of_nat h) memory_order_relaxed))
                c lo hi k h prev2 HI Hc)
      as (sl' & Hrun & R1 & R2 & R3 & R4 & R5 & R6 & R7 & R8); [lia | done | done | |].
    { intros j Hj. destruct (decide (Z.of_nat j < max_height_ sl)) as [Hlow | Hhigh].
      - rewrite Hout by lia. by apply Hrec.
      - rewrite Hin by lia. destruct (Htall j Hj) as [? | ->]; [lia |].
        by rewrite (inv_head _ _ HI). }
    exists sl'. split; [exact Hrun |]. do 3 (split; [done |]).
    split; [done |]. split; [done |]. split; [simpl in R3; lia |]. split; [done |].
    split; [done |]. split; [done |]. split; [done |].
    rewrite R8. simpl. by rewrite <- (assoc_L (++)).
  - (* the height hint stays *)
    destruct (NewNode_splice sl (with_rnd sl r) c lo hi k h prev1 HI Hc)
      as (sl' & Hrun & R1 & R2 & R3 & R4 & R5 & R6 & R7 & R8); [lia | done | done | |].
    { intros j Hj. apply Hrec. lia. }
    exists sl'. split; [exact Hrun |]. do 3 (split; [done |]).
    split; [done |]. split; [done |]. split; [simpl in R3; lia |]. split; [done |].
    split; [done |]. split; [done |]. split; [done |].
    by rewrite R8.
Qed.

End InsertSpec.

(** ** The invariant is established and kept *)

(** The constructor returns a well-formed empty list. *)
Lemma SkipList_new_Inv : exists sl0 : SkipList P, SkipList_new = Ok sl0 /\ Inv sl0 [].
Proof.
  assert (forall sl : SkipList P, nodes sl =
            [mkNode (Key_of_int 0) (replicate 12 (Some None))] ->
            head_ sl = Some O -> max_height_ sl = 1 -> Inv sl []) as Hinv.
  { intros sl Hnodes Hhead Hmax. constructor.
    - done.
    - unfold height. by rewrite Hnodes.
    - lia.
    - constructor.
    - intros n Hn. unfold above, slot. simpl. rewrite Hnodes. simpl.
      do 12 (destruct n as [| n]; [done |]). lia.
    - constructor.
    - by rewrite Hnodes. }
  unfold SkipList_new, SetNext, assert.
  destruct NDEBUG; (eexists; split; [vm_compute; reflexivity |]); by apply Hinv.
Qed.

Section Keeping.
Hypothesis Hord : strict_total_order.

Lemma not_before_ne_after (a b : Key) : ~ before a b -> a <> b -> before b a.
Proof.
  destruct Hord as (Hflip & _ & Hzero). unfold before. intros Hnot Hne.
  apply Hflip. destruct (Z.lt_trichotomy (compare_ a b) 0) as [Hlt | [Heq | Hgt]]; [done | | done].
  by apply Hzero in Heq.
Qed.

(** The list [Insert] leaves behind is well-formed when the key was not
    on the chain; the new node sits between the nodes before the key and
    the rest. *)
Lemma spliced_Inv (sl sl' : SkipList P) c lo hi k (h : nat) :
  Inv sl c -> c = lo ++ hi ->
  Forall (fun a => before (key_at sl a) k) lo ->
  Forall (fun a => ~ before (key_at sl a) k) hi ->
  Forall (fun a => key_at sl a <> k) c ->
  (1 <= h <= 12)%nat ->
  let n := length (nodes sl) in
  length (nodes sl') = S n -> head_ sl' = head_ sl ->
  max_height_ sl' = Z.max (max_height_ sl) (Z.of_nat h) ->
  (forall a, key_at sl' a = if decide (a = n) then k else key_at sl a) ->
  (forall a, height sl' a = if decide (a = n) then h else height sl a) ->
  (forall j, (j < 12)%nat -> linked (slot sl' j) O (above sl' j (lo ++ n :: hi))) ->
  Inv sl' (lo ++ n :: hi) /\
  key_at sl' <$> (lo ++ n :: hi) = (key_at sl <$> lo) ++ k :: (key_at sl <$> hi).
Proof.
  intros HI Hc Hlo Hhi Habsent Hdraws n R1 R2 R3 R5 R6 R7.
  pose proof (inv_max _ _ HI) as Hmax.
  assert (forall a, a ∈ c -> a <> n) as Hcn.
  { intros a Ha. apply (Inv_elem _ _ _ HI) in Ha. subst n. lia. }
  assert (forall l, l ⊆ c -> key_at sl' <$> l = key_at sl <$> l) as Hkeys.
  { intros l Hl. apply list_fmap_ext. intros i a Ha. rewrite R5.
    rewrite decide_False; [done |]. apply Hcn, Hl. by eapply list_elem_of_lookup_2. }
  assert (key_at sl' <$> (lo ++ n :: hi) = (key_at sl <$> lo) ++ k :: (key_at sl <$> hi)) as Hk.
  { rewrite fmap_app, fmap_cons, R5, decide_True by done.
    rewrite (Hkeys lo), (Hkeys hi); [done | |]; rewrite Hc; set_solver. }
  split; [| done].
  constructor.
  - by rewrite R2, (inv_head _ _ HI).
  - rewrite R6, decide_False; [apply (inv_head_height _ _ HI) |].
    assert (height sl O = 12%nat) as H0 by apply (inv_head_height _ _ HI).
    unfold height in H0. destruct (nodes sl !! O) eqn:Hl0; [| done].
    apply lookup_lt_Some in Hl0. subst n. lia.
  - lia.
  - pose proof (inv_nodes _ _ HI) as Hn. rewrite Hc in Hn.
    apply Forall_app in Hn as [Hn1 Hn2].
    assert (forall l, l ⊆ c ->
              Forall (fun a => (0 < a < length (nodes sl))%nat /\ (1 <= height sl a)%nat /\
                               Z.of_nat (height sl a) <= max_height_ sl) l ->
              Forall (fun a => (0 < a < length (nodes sl'))%nat /\ (1 <= height sl' a)%nat /\
                               Z.of_nat (height sl' a) <= max_height_ sl') l) as Hlift.
    { intros l Hl Hall. apply Forall_forall. intros a Ha. rewrite Forall_forall in Hall.
      destruct (Hall a Ha) as (H1 & H2 & H3).
      rewrite R6, decide_False by (by apply Hcn, Hl). lia. }
    apply Forall_app. split; [apply Hlift; [rewrite Hc; set_solver | done] |].
    constructor; [| apply Hlift; [rewrite Hc; set_solver | done]].
    rewrite R6, decide_True by done.
    assert (0 < n)%nat.
    { assert (height sl O = 12%nat) as H0 by apply (inv_head_height _ _ HI).
      unfold height in H0. destruct (nodes sl !! O) eqn:Hl0; [| done].
      apply lookup_lt_Some in Hl0. subst n. lia. }
    lia.
  - done.
  - pose proof (inv_sorted _ _ HI) as Hs. rewrite Hc in Hs.
    apply StronglySorted_app in Hs as (Hcross & Hs1 & Hs2).
    assert (forall a b, a ∈ c -> b ∈ c ->
              before (key_at sl a) (key_at sl b) -> before (key_at sl' a) (key_at sl' b)) as Hb.
    { intros a b Ha Hb. rewrite !R5. by rewrite !decide_False by (by apply Hcn). }
    assert (forall l, l ⊆ c ->
              StronglySorted (fun a b => before (key_at sl a) (key_at sl b)) l ->
              StronglySorted (fun a b => before (key_at sl' a) (key_at sl' b)) l) as Hlift.
    { intros l Hl. induction 1 as [| a l Hsl IH Hal]; constructor.
      - apply IH. set_solver.
      - apply Forall_forall. intros b Hbl. rewrite Forall_forall in Hal.
        apply Hb; [set_solver | set_solver | by apply Hal]. }
    apply StronglySorted_app_2.
    + intros a b Ha [-> | Hbh]%elem_of_cons.
      * rewrite (R5 n), (decide_True (P := n = n)) by done.
        rewrite (R5 a), decide_False by (apply Hcn; rewrite Hc; set_solver).
        rewrite Forall_forall in Hlo. by apply Hlo.
      * apply Hb; [rewrite Hc; set_solver | rewrite Hc; set_solver | by apply Hcross].
    + apply Hlift; [rewrite Hc; set_solver | done].
    + constructor; [apply Hlift; [rewrite Hc; set_solver | done] |].
      apply Forall_forall. intros b Hbh.
      rewrite (R5 n), (decide_True (P := n = n)) by done.
      rewrite (R5 b), decide_False by (apply Hcn; rewrite Hc; set_solver).
      rewrite Forall_forall in Hhi, Habsent.
      apply not_before_ne_after; [by apply Hhi |]. apply Habsent. rewrite Hc. set_solver.
  - rewrite R1. replace (S n - 1)%nat with (S (n - 1)) by
      (assert (height sl O = 12%nat) as H0 by apply (inv_head_height _ _ HI);
       unfold height in H0; destruct (nodes sl !! O) eqn:Hl0; [| done];
       apply lookup_lt_Some in Hl0; subst n; lia).
    rewrite seq_S. pose proof (inv_all _ _ HI) as Hperm. fold n in Hperm.
    rewrite <- Hperm, Hc.
    replace (1 + (n - 1))%nat with n by
      (assert (height sl O = 12%nat) as H0 by apply (inv_head_height _ _ HI);
       unfold height in H0; destruct (nodes sl !! O) eqn:Hl0; [| done];
       apply lookup_lt_Some in Hl0; subst n; lia).
    rewrite <- (assoc_L (++)). apply Permutation_app_head.
    apply Permutation_cons_append.
Qed.


(** Inserting a key that is not on the chain keeps the list well-formed. *)
Lemma Insert_Inv (sl : SkipList P) c k fuel :
  Inv sl c ->
  (length c + Z.to_nat (max_height_ sl) <= fuel)%nat ->
  Forall (fun a => key_at sl a <> k) c ->
  exists lo hi sl',
    Insert fuel k sl = Ok sl' /\ c = lo ++ hi /\
    Inv sl' (lo ++ length (nodes sl) :: hi) /\
    key_at sl' <$> (lo ++ length (nodes sl) :: hi)
      = (key_at sl <$> lo) ++ k :: (key_at sl <$> hi) /\
    length (nodes sl') = S (length (nodes sl)).
Proof.
  intros HI Hfuel Habsent.
  destruct (Insert_spec Hord sl c k fuel HI Hfuel (fun _ => Habsent))
    as (lo & hi & sl' & Hrun & Hc & Hlo & Hhi & R1 & R2 & R3 & R4 & R5 & R6 & R7 & _).
  pose proof (successful_draws_le 11 (rnd_ sl)) as Hdraws.
  destruct (spliced_Inv sl sl' c lo hi k (S (successful_draws 11 (rnd_ sl)).1)
              HI Hc Hlo Hhi Habsent ltac:(lia) R1 R2 R3 R5 R6 R7) as [HI' Hkeys].
  by exists lo, hi, sl'.
Qed.

End Keeping.

(** ** Reading the chain back *)

Lemma walk_nullptr (sl : SkipList P) n fuel : walk fuel sl n None = [].
Proof. by destruct fuel. Qed.

Lemma walk_linked (sl : SkipList P) n l : forall a fuel,
  linked (slot sl n) a l -> (length l < fuel)%nat -> walk fuel sl n (Some a) = a :: l.
Proof.
  induction l as [| b l IH]; intros a fuel Hl Hfuel;
    (destruct fuel as [| fuel]; [simpl in Hfuel; lia |]); simpl in *.
  - by rewrite Hl, walk_nullptr.
  - destruct Hl as [-> Hl]. f_equal. apply IH; [done | lia].
Qed.

Lemma Inv_length (sl : SkipList P) c : Inv sl c -> S (length c) = length (nodes sl).
Proof.
  intros HI. rewrite (Permutation_length (inv_all _ _ HI)), length_seq.
  assert (height sl O = 12%nat) as H0 by apply (inv_head_height _ _ HI).
  unfold height in H0. destruct (nodes sl !! O) eqn:Hl0; [| done].
  apply lookup_lt_Some in Hl0. lia.
Qed.

Lemma chain_linked (sl : SkipList P) n l : head_ sl = Some O ->
  linked (slot sl n) O l -> (length l < length (nodes sl))%nat -> chain sl n = l.
Proof.
  intros Hhead Hl Hlen. unfold chain. rewrite Hhead. destruct l as [| b l]; simpl in Hl.
  - by rewrite Hl, walk_nullptr.
  - destruct Hl as [-> Hl]. apply walk_linked; [done |]. simpl in Hlen. lia.
Qed.

(** On a well-formed list, walking level [n] from the head meets exactly
    the nodes with more than [n] levels, in chain order. *)
Lemma chain_Inv (sl : SkipList P) c n : Inv sl c -> (n < 12)%nat -> chain sl n = above sl n c.
Proof.
  intros HI Hn. unfold chain. rewrite (inv_head _ _ HI).
  pose proof (inv_links _ _ HI n Hn) as Hl.
  pose proof (Inv_length _ _ HI) as Hlen.
  pose proof (length_filter (fun a => (n < height sl a)%nat) c) as Hle. fold (above sl n c) in Hle.
  destruct (above sl n c) as [| b l]; simpl in Hl.
  - by rewrite Hl, walk_nullptr.
  - destruct Hl as [-> Hl]. apply walk_linked; [done |]. simpl in Hle. lia.
Qed.

Lemma keys_Inv (sl : SkipList P) c : Inv sl c -> keys sl = key_at sl <$> c.
Proof.
  intros HI. unfold keys. rewrite (chain_Inv sl c 0 HI) by lia. f_equal.
  apply above_0. eapply Forall_impl; [apply (inv_nodes _ _ HI) |]. naive_solver.
Qed.

Lemma Inv_keys_sorted (sl : SkipList P) c : Inv sl c -> StronglySorted before (key_at sl <$> c).
Proof.
  intros HI. pose proof (inv_sorted _ _ HI) as Hs. clear HI.
  induction Hs as [| a l Hs IH Hal]; [constructor |]. rewrite fmap_cons.
  constructor; [done |]. by apply Forall_fmap.
Qed.

Lemma key_at_seq (sl : SkipList P) i :
  key_at sl <$> seq i (length (nodes sl) - i) = key <$> drop i (nodes sl).
Proof.
  apply list_eq. intros j. rewrite !list_lookup_fmap, lookup_drop.
  destruct (decide (j < length (nodes sl) - i)%nat) as [Hj | Hj].
  - rewrite lookup_seq_lt by done. simpl. unfold key_at.
    destruct (lookup_lt_is_Some_2 (nodes sl) (i + j) ltac:(lia)) as [nd ->]. done.
  - rewrite lookup_seq_ge by lia. by rewrite lookup_ge_None_2 by lia.
Qed.

(** The keys of the nodes behind the head are the keys on the chain. *)
Lemma keys_of_nodes (sl : SkipList P) c : Inv sl c ->
  key <$> drop 1 (nodes sl) ≡ₚ key_at sl <$> c.
Proof. intros HI. by rewrite <- key_at_seq, (inv_all _ _ HI). Qed.

Lemma nodes_with_key_length (sl : SkipList P) k :
  length (nodes_with_key sl k) =
  length (filter (fun x => Equal k x = true) (key <$> drop 1 (nodes sl))).
Proof.
  unfold nodes_with_key. induction (drop 1 (nodes sl)) as [| nd l IH]; [done |].
  rewrite fmap_cons, !filter_cons. destruct (decide (Equal k (key nd) = true)); simpl; by rewrite IH.
Qed.

Section Unique.
Hypothesis Hord : strict_total_order.

Lemma filter_Equal_after (l : list Key) x : Forall (before x) l ->
  filter (fun y => Equal x y = true) l = [].
Proof.
  induction 1 as [| y l Hy _ IH]; [done |]. rewrite filter_cons_False; [done |].
  intros Hxy%(Equal_true_iff Hord). subst y. by apply (before_irrefl Hord x).
Qed.

Lemma sorted_keys_once (l : list Key) k : StronglySorted before l -> k ∈ l ->
  length (filter (fun x => Equal k x = true) l) = 1%nat.
Proof.
  induction 1 as [| x l Hs IH Hx]; intros Hk; [by apply elem_of_nil in Hk |].
  rewrite filter_cons. destruct (decide (Equal k x = true)) as [Heq | Hne].
  - apply (Equal_true_iff Hord) in Heq as ->. by rewrite filter_Equal_after.
  - apply elem_of_cons in Hk as [-> | Hk]; [| by apply IH].
    exfalso. apply Hne. by apply (Equal_true_iff Hord).
Qed.

(** On a well-formed list every key of the chain belongs to exactly one
    node. *)
Lemma Inv_once (sl : SkipList P) c k : Inv sl c -> k ∈ key_at sl <$> c ->
  length (nodes_with_key sl k) = 1%nat.
Proof.
  intros HI Hk. rewrite nodes_with_key_length.
  rewrite (keys_of_nodes sl c HI).
  apply sorted_keys_once; [by apply Inv_keys_sorted | done].
Qed.

(** A run of [Insert]s with fresh, pairwise different keys goes through
    and keeps the list well-formed; the chain then carries the old keys
    and the new ones. *)
Lemma insert_all_Inv fuel ks : forall (sl : SkipList P) c,
  Inv sl c -> NoDup ks -> (forall k, k ∈ ks -> k ∉ key_at sl <$> c) ->
  (length c + length ks + 12 <= fuel)%nat ->
  exists sl' c', insert_all fuel ks sl = Ok sl' /\ Inv sl' c' /\
    key_at sl' <$> c' ≡ₚ (key_at sl <$> c) ++ ks.
Proof.
  induction ks as [| k ks IH]; intros sl c HI Hnd Hfresh Hfuel; simpl.
  - exists sl, c. by rewrite (right_id_L [] (++)).
  - apply NoDup_cons in Hnd as [Hk Hnd]. pose proof (inv_max _ _ HI) as Hmax.
    destruct (Insert_Inv Hord sl c k fuel HI) as (lo & hi & sl1 & -> & Hc & HI1 & Hkeys & _).
    + simpl in Hfuel. lia.
    + apply Forall_forall. intros a Ha Heq. apply (Hfresh k); [set_solver |].
      rewrite <- Heq. by apply list_elem_of_fmap_2.
    + simpl. destruct (IH sl1 _ HI1 Hnd) as (sl' & c' & Hrun & HI' & Hperm).
      * intros k' Hk'. rewrite Hkeys. intros Hin.
        assert (k' ∈ key_at sl <$> c) as Hold.
        { rewrite Hc, fmap_app. set_solver. }
        by apply (Hfresh k'); [set_solver |].
      * rewrite length_app in *. simpl in *. rewrite Hc, length_app in Hfuel. lia.
      * exists sl', c'. split; [done |]. split; [done |].
        rewrite Hperm, Hkeys, Hc, fmap_app.
        rewrite <- !(assoc_L (++)). apply Permutation_app_head. simpl.
        by rewrite Permutation_middle.
Qed.

End Unique.

(** ** The claims about Insert and the search *)

(** C3.  Pairwise different keys are inserted into a fresh list, one
    after the other.  After each [Insert] (after the first [i] of them,
    for every [i]) the call has returned, the keys met along level 0
    from the head increase strictly, they are the keys inserted so far,
    and each inserted key is the key of exactly one node. *)
Theorem Insert_keeps_level0_increasing_and_keys_unique
    (fuel : nat) (ks : list Key) (i : nat) :
  strict_total_order -> NoDup ks -> (length ks + 12 <= fuel)%nat ->
  exists sl0 sl : SkipList P,
    SkipList_new = Ok sl0 /\ insert_all fuel (take i ks) sl0 = Ok sl /\
    StronglySorted before (keys sl) /\ keys sl ≡ₚ take i ks /\
    forall k, k ∈ take i ks -> length (nodes_with_key sl k) = 1%nat.
Proof.
  intros Hord Hnd Hfuel. destruct SkipList_new_Inv as (sl0 & Hnew & HI0).
  destruct (insert_all_Inv Hord fuel (take i ks) sl0 [] HI0) as (sl & c & Hrun & HI & Hperm).
  - rewrite <- (take_drop i ks) in Hnd. by apply NoDup_app in Hnd as [? _].
  - intros k _. simpl. apply not_elem_of_nil.
  - rewrite length_take. simpl. lia.
  - exists sl0, sl. split; [done |]. split; [done |].
    rewrite (keys_Inv sl c HI). simpl in Hperm.
    split; [by apply Inv_keys_sorted |]. split; [done |].
    intros k Hk. apply (Inv_once Hord sl c k HI). by rewrite Hperm.
Qed.

(** The nodes of level [j] once node [n] of height [h] sits between
    [lo] and [hi]. *)
Lemma above_spliced (sl sl' : SkipList P) lo hi n h j :
  (forall a, height sl' a = if decide (a = n) then h else height sl a) ->
  n ∉ lo -> n ∉ hi ->
  above sl' j (lo ++ n :: hi) =
    above sl j lo ++ (if decide (j < h)%nat then n :: above sl j hi else above sl j hi).
Proof.
  intros Hheight Hlo Hhi.
  assert (forall l, n ∉ l -> above sl' j l = above sl j l) as Hsame.
  { intros l Hl. apply above_ext. intros a Ha. rewrite Hheight.
    rewrite decide_False; [done |]. by intros ->. }
  rewrite above_app, (Hsame lo Hlo). f_equal.
  unfold above at 1. rewrite filter_cons. fold (above sl' j hi).
  rewrite (Hsame hi Hhi), (Hheight n), (decide_True (P := n = n)) by done. done.
Qed.

(** ** More fuel does not change a result *)

Lemma FindGreaterOrEqual_loop_more_fuel (sl : SkipList P) k fuel :
  forall fuel' x level prev r,
  FindGreaterOrEqual_loop fuel sl k x level prev = Ok r -> (fuel <= fuel')%nat ->
  FindGreaterOrEqual_loop fuel' sl k x level prev = Ok r.
Proof.
  induction fuel as [| fuel IH]; intros fuel' x level prev r Hrun Hle; [done |].
  destruct fuel' as [| fuel']; [lia |]. simpl in *.
  destruct (Next sl x level) as [next |]; simpl in *; [| done].
  destruct (KeyIsAfterNode sl k next) as [[] |]; simpl in *; [apply IH; [done | lia] | | done].
  destruct (match prev with
            | Some pa => let* pa' := prev_set pa level x in Ok (Some pa')
            | None => Ok None
            end) as [prev' |]; simpl in *; [| done].
  destruct (level =? 0); [done | apply IH; [done | lia]].
Qed.

Lemma Insert_more_fuel (sl sl' : SkipList P) k fuel fuel' :
  Insert fuel k sl = Ok sl' -> (fuel <= fuel')%nat -> Insert fuel' k sl = Ok sl'.
Proof.
  unfold Insert, FindGreaterOrEqual. intros Hrun Hle.
  destruct (FindGreaterOrEqual_loop fuel sl k _ _ _) as [r |] eqn:Hfind; [| done].
  by rewrite (FindGreaterOrEqual_loop_more_fuel sl k fuel fuel' _ _ _ r Hfind Hle).
Qed.

Section Claims.
Hypothesis Hord : strict_total_order.

(** ** Every reachable list is well-formed *)

Lemma chain0_Inv (sl : SkipList P) c : Inv sl c -> chain sl 0 = c.
Proof.
  intros HI. rewrite (chain_Inv sl c 0 HI) by lia.
  apply above_0. eapply Forall_impl; [apply (inv_nodes _ _ HI) |]. naive_solver.
Qed.

Lemma Inv_fuel (sl : SkipList P) c fuel : Inv sl c ->
  (length (nodes sl) + 12 <= fuel)%nat ->
  (length c + Z.to_nat (max_height_ sl) <= fuel)%nat.
Proof.
  intros HI Hfuel. pose proof (Inv_length _ _ HI). pose proof (inv_max _ _ HI). lia.
Qed.

Lemma Insert_step (sl sl' : SkipList P) c k fuel :
  Inv sl c -> k ∉ keys sl -> Insert fuel k sl = Ok sl' ->
  exists c', Inv sl' c' /\ keys sl' ≡ₚ k :: keys sl.
Proof.
  intros HI Hk Hrun. rewrite (keys_Inv sl c HI) in Hk.
  pose proof (inv_max _ _ HI) as Hmax.
  apply (Insert_more_fuel _ _ _ _ (fuel `max` (length c + 12))) in Hrun; [| lia].
  destruct (Insert_Inv Hord sl c k (fuel `max` (length c + 12)) HI)
    as (lo & hi & sl'' & Hrun' & Hc & HI' & Hkeys & _).
  - lia.
  - apply Forall_forall. intros a Ha Heq. apply Hk. rewrite <- Heq.
    by apply list_elem_of_fmap_2.
  - assert (sl'' = sl') as -> by congruence. eexists. split; [exact HI' |].
    rewrite (keys_Inv _ _ HI'), Hkeys, (keys_Inv sl c HI), Hc, fmap_app.
    by rewrite Permutation_middle.
Qed.

Lemma reachable_Inv (sl : SkipList P) : reachable sl -> exists c, Inv sl c.
Proof.
  induction 1 as [sl Hnew | fuel k sl sl' _ [c HI] Hk Hrun].
  - destruct SkipList_new_Inv as (sl0 & Hnew0 & HI0). exists []. congruence.
  - destruct (Insert_step sl sl' c k fuel HI Hk Hrun) as (c' & HI' & _). by exists c'.
Qed.

(** A run of [Insert]s with fresh, pairwise different keys leads from a
    reachable list to a reachable list. *)
Lemma insert_all_reachable fuel ks : forall sl sl' : SkipList P,
  reachable sl -> NoDup ks -> (forall k, k ∈ ks -> k ∉ keys sl) ->
  insert_all fuel ks sl = Ok sl' -> reachable sl'.
Proof.
  induction ks as [| k ks IH]; intros sl sl' Hreach Hnd Hfresh Hrun; simpl in Hrun.
  - congruence.
  - destruct (Insert fuel k sl) as [sl1 |] eqn:Hins; simpl in Hrun; [| done].
    apply NoDup_cons in Hnd as [Hk Hnd].
    assert (k ∉ keys sl) as Hksl by (apply Hfresh; set_solver).
    apply (IH sl1 sl'); [by eapply reachable_Insert | done | | done].
    intros k' Hk'. destruct (reachable_Inv sl Hreach) as [c HI].
    destruct (Insert_step sl sl1 c k fuel HI Hksl Hins) as (_ & _ & ->).
    intros [-> | Hin]%elem_of_cons; [done |]. by apply (Hfresh k'); [set_solver |].
Qed.

(** A key of the chain is the key of the first node that is not before it. *)
Lemma present_head (sl : SkipList P) c lo hi k : Inv sl c -> c = lo ++ hi ->
  Forall (fun a => before (key_at sl a) k) lo ->
  Forall (fun a => ~ before (key_at sl a) k) hi ->
  k ∈ key_at sl <$> c ->
  exists b hi', hi = b :: hi' /\ key_at sl b = k.
Proof.
  intros HI Hc Hlo Hhi Hk. apply list_elem_of_fmap in Hk as (a & -> & Ha).
  rewrite Hc in Ha. apply elem_of_app in Ha as [Ha | Ha].
  - rewrite Forall_forall in Hlo. by destruct (before_irrefl Hord _ (Hlo a Ha)).
  - destruct hi as [| b hi']; [by apply elem_of_nil in Ha |].
    exists b, hi'. split; [done |]. apply elem_of_cons in Ha as [-> | Ha]; [done |].
    pose proof (inv_sorted _ _ HI) as Hs. rewrite Hc in Hs.
    apply StronglySorted_app_1_r, StronglySorted_cons in Hs as [Hb _].
    rewrite Forall_forall in Hb. apply Forall_cons in Hhi as [Hnb _].
    by destruct (Hnb (Hb a Ha)).
Qed.

(** C2.  On every reachable list, with fuel for one pass, the search
    starts at the head on the top level of the height hint; a step moves
    right on the same level when the next node's key is before the
    search key, and otherwise records the node it stands on in the
    out-array (when one was passed) and goes down one level, or returns
    the next node on level 0.  It returns the first node of the level-0
    chain whose key is not before the search key ([nullptr] when there
    is none), and the out-array holds, for every level below the height
    hint, the last node of that level before the key (the head when
    there is none). *)
Theorem FindGreaterOrEqual_finds_first_not_before
    (sl : SkipList P) k fuel (prev : PrevArray) :
  reachable sl -> (12 <= length prev)%nat ->
  (length (nodes sl) + 12 <= fuel)%nat ->
  (forall op, FindGreaterOrEqual fuel sl k op =
     FindGreaterOrEqual_loop fuel sl k (head_ sl) (GetMaxHight sl - 1) op) /\
  (forall f x level op next,
     Next sl x level = Ok next -> KeyIsAfterNode sl k next = Ok true ->
     FindGreaterOrEqual_loop (S f) sl k x level op =
       FindGreaterOrEqual_loop f sl k next level op) /\
  (forall f x level pa next,
     Next sl x level = Ok next -> KeyIsAfterNode sl k next = Ok false ->
     0 <= level < Z.of_nat (length pa) ->
     FindGreaterOrEqual_loop (S f) sl k x level (Some pa) =
       if level =? 0 then Ok (next, Some (<[Z.to_nat level := Some x]> pa))
       else FindGreaterOrEqual_loop f sl k x (level - 1)
              (Some (<[Z.to_nat level := Some x]> pa))) /\
  (forall f x level next,
     Next sl x level = Ok next -> KeyIsAfterNode sl k next = Ok false ->
     FindGreaterOrEqual_loop (S f) sl k x level None =
       if level =? 0 then Ok (next, None)
       else FindGreaterOrEqual_loop f sl k x (level - 1) None) /\
  exists lo hi prev',
    chain sl 0 = lo ++ hi /\
    Forall (fun a => before (key_at sl a) k) lo /\
    Forall (fun a => ~ before (key_at sl a) k) hi /\
    FindGreaterOrEqual fuel sl k None = Ok (head hi, None) /\
    FindGreaterOrEqual fuel sl k (Some prev) = Ok (head hi, Some prev') /\
    (forall n, Z.of_nat n < GetMaxHight sl ->
       prev' !! n = Some (Some (Some (pred_of (above sl n lo))))) /\
    (forall n, GetMaxHight sl <= Z.of_nat n -> prev' !! n = prev !! n).
Proof.
  intros Hreach Hprev Hfuel. destruct (reachable_Inv sl Hreach) as [c HI].
  pose proof (Inv_fuel sl c fuel HI Hfuel) as Hfuel'.
  split; [done |]. split; [| split; [| split]].
  - intros f x level op next Hnext Hafter. cbn [FindGreaterOrEqual_loop].
    rewrite Hnext. cbn [bind]. by rewrite Hafter.
  - intros f x level pa next Hnext Hafter Hlevel. cbn [FindGreaterOrEqual_loop].
    rewrite Hnext. cbn [bind]. rewrite Hafter. cbn [bind].
    unfold prev_set.
    replace (0 <=? level) with true by (symmetry; apply Z.leb_le; lia).
    replace (level <? Z.of_nat (length pa)) with true by (symmetry; apply Z.ltb_lt; lia).
    done.
  - intros f x level next Hnext Hafter. cbn [FindGreaterOrEqual_loop].
    rewrite Hnext. cbn [bind]. by rewrite Hafter.
  - destruct (FindGreaterOrEqual_spec Hord sl c k fuel prev HI Hprev Hfuel')
      as (lo & hi & prev' & H1 & H2 & H3 & H4 & H5 & _ & H7 & H8).
    exists lo, hi, prev'. rewrite (chain0_Inv sl c HI). by unfold GetMaxHight.
Qed.

(** What [Insert] of an absent key does to the chains and which writes
    it performs, on a well-formed list with chain [c]. *)
Lemma Insert_splices_on_Inv (sl : SkipList P) c k fuel :
  Inv sl c ->
  (length c + Z.to_nat (max_height_ sl) <= fuel)%nat ->
  Forall (fun a => key_at sl a <> k) c ->
  let n := length (nodes sl) in
  let h := S (successful_draws 11 (rnd_ sl)).1 in
  exists lo hi sl',
    Insert fuel k sl = Ok sl' /\
    c = lo ++ hi /\
    Forall (fun a => before (key_at sl a) k) lo /\
    Forall (fun a => ~ before (key_at sl a) k) hi /\
    key_at sl' n = k /\ height sl' n = h /\
    (forall j, (j < 12)%nat -> chain sl j = above sl j lo ++ above sl j hi) /\
    (forall j, (j < h)%nat -> chain sl' j = above sl j lo ++ n :: above sl j hi) /\
    (forall j, (h <= j < 12)%nat -> chain sl' j = chain sl j) /\
    (forall j, (j < h)%nat ->
       slot sl j (pred_of (above sl j lo)) = Some (head (above sl j hi))) /\
    stores sl' = stores sl ++
      (if max_height_ sl <? Z.of_nat h
       then [StoreMaxHeight (Z.of_nat h) memory_order_relaxed] else []) ++
      flat_map (fun j => [StoreNext n (Z.of_nat j) (head (above sl j hi)) memory_order_relaxed;
                          StoreNext (pred_of (above sl j lo)) (Z.of_nat j) (Some n)
                            memory_order_release])
               (seq 0 h).
Proof.
  intros HI Hfuel Habsent n h.
  pose proof (successful_draws_le 11 (rnd_ sl)) as Hdraws. fold h in Hdraws.
  destruct (Insert_spec Hord sl c k fuel HI Hfuel (fun _ => Habsent))
    as (lo & hi & sl' & Hrun & Hc & Hlo & Hhi & R1 & R2 & R3 & R4 & R5 & R6 & R7 & R8).
  fold n in R1, R5, R6, R7, R8. fold h in R3, R6, R8.
  destruct (spliced_Inv Hord sl sl' c lo hi k h HI Hc Hlo Hhi Habsent ltac:(lia)
              R1 R2 R3 R5 R6 R7) as [HI' _].
  fold n in HI'.
  assert (forall a, a ∈ c -> a <> n) as Hcn.
  { intros a Ha. apply (Inv_elem _ _ _ HI) in Ha. subst n. lia. }
  assert (n ∉ lo) as Hnlo by (intros Hin; apply (Hcn n); [rewrite Hc; set_solver | done]).
  assert (n ∉ hi) as Hnhi by (intros Hin; apply (Hcn n); [rewrite Hc; set_solver | done]).
  exists lo, hi, sl'. do 4 (split; [done |]).
  split; [by rewrite R5, decide_True |]. split; [by rewrite R6, decide_True |].
  split; [| split; [| split; [| split; [| done]]]].
  - intros j Hj. by rewrite (chain_Inv sl c j HI Hj), Hc, above_app.
  - intros j Hj. rewrite (chain_Inv sl' _ j HI') by lia.
    rewrite (above_spliced sl sl' lo hi n h j R6 Hnlo Hnhi). by rewrite decide_True.
  - intros j Hj. rewrite (chain_Inv sl' _ j HI'), (chain_Inv sl c j HI) by lia.
    rewrite (above_spliced sl sl' lo hi n h j R6 Hnlo Hnhi), decide_False by lia.
    by rewrite Hc, above_app.
  - intros j Hj.
    by destruct (pred_of_above_facts sl c lo hi j HI Hc ltac:(lia)) as (_ & _ & ?).
Qed.

(** C4.  Inserting a key that is not in a reachable list returns; the
    new node (with the drawn height [h]) appears on the levels
    [0 .. h-1], between the nodes before the key and the others, and the
    higher levels keep their chains.  The writes of the call are, level
    by level from 0 up: a relaxed store of the predecessor's successor
    into the new node's slot, then a release store of the new node into
    the predecessor's slot (after the relaxed store of a raised height
    hint). *)
Theorem Insert_splices_relaxed_then_release (sl : SkipList P) k fuel :
  reachable sl ->
  (length (nodes sl) + 12 <= fuel)%nat ->
  k ∉ keys sl ->
  let n := length (nodes sl) in
  let h := S (successful_draws 11 (rnd_ sl)).1 in
  exists lo hi sl',
    Insert fuel k sl = Ok sl' /\
    chain sl 0 = lo ++ hi /\
    Forall (fun a => before (key_at sl a) k) lo /\
    Forall (fun a => ~ before (key_at sl a) k) hi /\
    key_at sl' n = k /\ height sl' n = h /\
    (forall j, (j < 12)%nat -> chain sl j = above sl j lo ++ above sl j hi) /\
    (forall j, (j < h)%nat -> chain sl' j = above sl j lo ++ n :: above sl j hi) /\
    (forall j, (h <= j < 12)%nat -> chain sl' j = chain sl j) /\
    (forall j, (j < h)%nat ->
       slot sl j (pred_of (above sl j lo)) = Some (head (above sl j hi))) /\
    stores sl' = stores sl ++
      (if GetMaxHight sl <? Z.of_nat h
       then [StoreMaxHeight (Z.of_nat h) memory_order_relaxed] else []) ++
      flat_map (fun j => [StoreNext n (Z.of_nat j) (head (above sl j hi)) memory_order_relaxed;
                          StoreNext (pred_of (above sl j lo)) (Z.of_nat j) (Some n)
                            memory_order_release])
               (seq 0 h).
Proof.
  intros Hreach Hfuel Hk n h. destruct (reachable_Inv sl Hreach) as [c HI].
  rewrite (chain0_Inv sl c HI). rewrite (keys_Inv sl c HI) in Hk.
  apply (Insert_splices_on_Inv sl c k fuel HI (Inv_fuel sl c fuel HI Hfuel)).
  apply Forall_forall. intros a Ha Heq. apply Hk. rewrite <- Heq.
  by apply list_elem_of_fmap_2.
Qed.

(** [Insert] of a key that is on the chain [c] of a well-formed list. *)
Lemma Insert_duplicate_on_Inv (sl : SkipList P) c k fuel :
  Inv sl c ->
  (length c + Z.to_nat (max_height_ sl) <= fuel)%nat ->
  k ∈ key_at sl <$> c ->
  (NDEBUG = false -> Insert fuel k sl = Fault AssertionFailed) /\
  (NDEBUG = true ->
     exists sl' l1 l2, Insert fuel k sl = Ok sl' /\ keys sl' = l1 ++ k :: k :: l2).
Proof.
  intros HI Hfuel Hk. split.
  - intros Hdebug.
    destruct (FindGreaterOrEqual_spec Hord sl c k fuel (replicate 12 None) HI)
      as (lo & hi & prev1 & Hcall & _ & Hc & Hlo & Hhi & _);
      [by rewrite length_replicate | done |].
    destruct (present_head sl c lo hi k HI Hc Hlo Hhi Hk) as (b & hi' & -> & Hb).
    assert (b ∈ c) as Hbc by (rewrite Hc; set_solver).
    destruct (Inv_elem _ _ _ HI Hbc) as (Hlen & _).
    destruct (deref_key_at sl b ltac:(lia)) as (nd & _ & Hderef & Hkey).
    unfold Insert. change (Z.to_nat kMaxHeight) with 12%nat. rewrite Hcall. cbn [bind].
    unfold assert, absent_or_unequal. rewrite Hdebug. change (head (b :: hi')) with (Some b).
    rewrite Hderef. cbn [bind]. rewrite Hkey, Hb.
    by rewrite (proj2 (Equal_true_iff Hord k k) eq_refl).
  - intros Hrelease.
    destruct (Insert_spec Hord sl c k fuel HI Hfuel)
      as (lo & hi & sl' & Hrun & Hc & Hlo & Hhi & R1 & R2 & R3 & R4 & R5 & R6 & R7 & _).
    { intros Hdebug. rewrite Hrelease in Hdebug. discriminate. }
    destruct (present_head sl c lo hi k HI Hc Hlo Hhi Hk) as (b & hi' & -> & Hb).
    set (n := length (nodes sl)) in *.
    assert (forall a, a ∈ c -> a <> n) as Hcn.
    { intros a Ha. apply (Inv_elem _ _ _ HI) in Ha. subst n. lia. }
    assert (n ∉ lo) as Hnlo by (intros Hin; apply (Hcn n); [rewrite Hc; set_solver | done]).
    assert (n ∉ b :: hi') as Hnhi by (intros Hin; apply (Hcn n); [rewrite Hc; set_solver | done]).
    assert (forall l, l ⊆ c -> above sl 0 l = l) as Hall.
    { intros l Hl. apply above_0. apply Forall_forall. intros a Ha.
      by destruct (Inv_elem _ _ _ HI (Hl _ Ha)) as (_ & ? & _). }
    pose proof (R7 0%nat ltac:(lia)) as Hlinked.
    rewrite (above_spliced sl sl' lo (b :: hi') n _ 0 R6 Hnlo Hnhi) in Hlinked.
    rewrite decide_True in Hlinked by lia.
    rewrite (Hall lo), (Hall (b :: hi')) in Hlinked by (rewrite Hc; set_solver).
    apply chain_linked in Hlinked.
    2: { by rewrite R2, (inv_head _ _ HI). }
    2: { rewrite R1. pose proof (Inv_length _ _ HI) as Hlen. fold n in Hlen.
         rewrite Hc in Hlen. rewrite length_app in *. simpl in *. lia. }
    exists sl', (key_at sl' <$> lo), (key_at sl' <$> hi'). split; [done |].
    unfold keys. rewrite Hlinked, fmap_app, !fmap_cons. do 2 f_equal.
    + by rewrite R5, decide_True.
    + f_equal. rewrite R5, decide_False; [done |]. apply Hcn. rewrite Hc. set_solver.
Qed.

(** What [Contains] returns on a well-formed list: [true] for a key of
    the chain, and for every other key the name [flase]. *)
Lemma Contains_spec (sl : SkipList P) c k fuel :
  Inv sl c ->
  (length c + Z.to_nat (max_height_ sl) <= fuel)%nat ->
  (k ∈ key_at sl <$> c -> Contains fuel k sl = Ok (ret_bool true)) /\
  (k ∉ key_at sl <$> c -> Contains fuel k sl = Ok (ret_name "flase")).
Proof.
  intros HI Hfuel.
  destruct (FindGreaterOrEqual_spec Hord sl c k fuel (replicate 12 None) HI)
    as (lo & hi & prev1 & _ & Hcall & Hc & Hlo & Hhi & _);
    [by rewrite length_replicate | done |].
  unfold Contains. rewrite Hcall. cbn [bind]. split.
  - intros Hk. destruct (present_head sl c lo hi k HI Hc Hlo Hhi Hk) as (b & hi' & -> & Hb).
    assert (b ∈ c) as Hbc by (rewrite Hc; set_solver).
    destruct (Inv_elem _ _ _ HI Hbc) as (Hlen & _).
    destruct (deref_key_at sl b ltac:(lia)) as (nd & _ & Hderef & Hkey).
    unfold found_equal. change (head (b :: hi')) with (Some b). rewrite Hderef. cbn [bind].
    rewrite Hkey, Hb. by rewrite (proj2 (Equal_true_iff Hord k k) eq_refl).
  - intros Hk. destruct hi as [| b hi']; [done |].
    assert (b ∈ c) as Hbc by (rewrite Hc; set_solver).
    destruct (Inv_elem _ _ _ HI Hbc) as (Hlen & _).
    destruct (deref_key_at sl b ltac:(lia)) as (nd & _ & Hderef & Hkey).
    unfold found_equal. change (head (b :: hi')) with (Some b). rewrite Hderef. cbn [bind].
    rewrite Hkey. destruct (Equal k (key_at sl b)) eqn:Heq; [| done].
    apply (Equal_true_iff Hord) in Heq. destruct Hk. rewrite Heq.
    by apply list_elem_of_fmap_2.
Qed.

(** C9.  [Insert] of a key that is already in a reachable list: in a
    debug build the call stops at the assertion (the search returned a
    node whose key equals the inserted key); with [NDEBUG] the call runs
    on, reports nothing, and leaves a chain that carries the key twice
    in a row.  Either way no error value comes back: the call aborts or
    returns normally. *)
Theorem Insert_duplicate_asserts_or_corrupts (sl : SkipList P) k fuel :
  reachable sl ->
  (length (nodes sl) + 12 <= fuel)%nat ->
  k ∈ keys sl ->
  (NDEBUG = false -> Insert fuel k sl = Fault AssertionFailed) /\
  (NDEBUG = true ->
     exists sl' l1 l2, Insert fuel k sl = Ok sl' /\ keys sl' = l1 ++ k :: k :: l2).
Proof.
  intros Hreach Hfuel Hk. destruct (reachable_Inv sl Hreach) as [c HI].
  rewrite (keys_Inv sl c HI) in Hk.
  exact (Insert_duplicate_on_Inv sl c k fuel HI (Inv_fuel sl c fuel HI Hfuel) Hk).
Qed.

(** What [Contains] returns on a reachable list: [true] exactly for the
    keys of the list, and the name [flase], never [false], for the
    others. *)
Lemma Contains_on_reachable (sl : SkipList P) k fuel :
  reachable sl ->
  (length (nodes sl) + 12 <= fuel)%nat ->
  (k ∈ keys sl -> Contains fuel k sl = Ok (ret_bool true)) /\
  (k ∉ keys sl -> Contains fuel k sl = Ok (ret_name "flase")).
Proof.
  intros Hreach Hfuel. destruct (reachable_Inv sl Hreach) as [c HI].
  rewrite (keys_Inv sl c HI).
  exact (Contains_spec sl c k fuel HI (Inv_fuel sl c fuel HI Hfuel)).
Qed.

End Claims.

(** [Iterator::Next] leaves the iterator where it is. *)
Lemma Iterator_Next_stays (sl : SkipList P) it it' : Iterator.Next sl it = Ok it' -> it' = it.
Proof.
  unfold Iterator.Next. destruct (assert _); simpl; [| done].
  destruct (Next sl _ 0); simpl; [by intros [= <-] | done].
Qed.

(** [Iterator::Seek] does not look at its argument. *)
Lemma Iterator_Seek_any_target fuel (sl : SkipList P) t1 t2 it :
  Iterator.Seek fuel sl t1 it = Iterator.Seek fuel sl t2 it.
Proof. reflexivity. Qed.

End Facts.

(** ** The sample list *)

Lemma Z_order (ndebug : bool) : strict_total_order (P := ZParams ndebug).
Proof.
  unfold strict_total_order. simpl. unfold Z_compare. split; [| split].
  - intros a b. destruct (Z.ltb_spec a b), (Z.ltb_spec b a), (Z.eqb_spec a b),
      (Z.eqb_spec b a); lia.
  - intros a b c. destruct (Z.ltb_spec a b), (Z.ltb_spec b c), (Z.ltb_spec a c),
      (Z.eqb_spec a b), (Z.eqb_spec b c), (Z.eqb_spec a c); lia.
  - intros a b. destruct (Z.ltb_spec a b), (Z.eqb_spec a b); lia.
Qed.

Lemma run_sample_Ok : run_sample = Ok sample.
Proof. reflexivity. Qed.

Lemma run_sample_release_Ok :
  (let* sl0 := SkipList_new in insert_all (P := ZParams true) 16 [5; 1; 9; 3] sl0)
  = Ok sample_release.
Proof. reflexivity. Qed.

Lemma sample_keys : keys sample = [1; 3; 5; 9].
Proof. reflexivity. Qed.

Lemma sample_reachable : reachable sample.
Proof.
  destruct (SkipList_new_Inv (P := ZParams false)) as (sl0 & Hnew & HI0).
  pose proof run_sample_Ok as Hrun. unfold run_sample in Hrun. rewrite Hnew in Hrun.
  cbn [bind] in Hrun.
  apply (insert_all_reachable (Z_order false) 16 [5; 1; 9; 3] sl0 sample).
  - by apply reachable_new.
  - compute_done.
  - intros k _. rewrite (keys_Inv sl0 [] HI0). apply not_elem_of_nil.
  - exact Hrun.
Qed.

Lemma sample_release_reachable : reachable sample_release.
Proof.
  destruct (SkipList_new_Inv (P := ZParams true)) as (sl0 & Hnew & HI0).
  pose proof run_sample_release_Ok as Hrun. rewrite Hnew in Hrun. cbn [bind] in Hrun.
  apply (insert_all_reachable (Z_order true) 16 [5; 1; 9; 3] sl0 sample_release).
  - by apply reachable_new.
  - compute_done.
  - intros k _. rewrite (keys_Inv sl0 [] HI0). apply not_elem_of_nil.
  - exact Hrun.
Qed.

(** ** The claims on the sample list *)

Lemma FindGreaterOrEqual_finds_first_not_before_witness :
  reachable sample /\
  exists lo hi prev',
    chain sample 0 = lo ++ hi /\
    Forall (fun a => before (key_at sample a) 4) lo /\
    Forall (fun a => ~ before (key_at sample a) 4) hi /\
    FindGreaterOrEqual 32 sample 4 None = Ok (head hi, None) /\
    FindGreaterOrEqual 32 sample 4 (Some (replicate 12 None)) = Ok (head hi, Some prev') /\
    (forall n, Z.of_nat n < GetMaxHight sample ->
       prev' !! n = Some (Some (Some (pred_of (above sample n lo))))) /\
    (forall n, GetMaxHight sample <= Z.of_nat n ->
       prev' !! n = replicate 12 (@None NodePtr) !! n).
Proof.
  split; [exact sample_reachable |].
  destruct (FindGreaterOrEqual_finds_first_not_before (Z_order false)
              sample 4 32 (replicate 12 None) sample_reachable)
    as (_ & _ & _ & _ & Hfound).
  - simpl. lia.
  - simpl. lia.
  - exact Hfound.
Defined.

Lemma Insert_keeps_level0_increasing_and_keys_unique_witness :
  exists sl0 sl : SkipList (ZParams false),
    SkipList_new = Ok sl0 /\
    insert_all (P := ZParams false) 16 (take 3 [5; 1; 9; 3]) sl0 = Ok sl /\
    StronglySorted before (keys sl) /\ keys sl ≡ₚ take 3 [5; 1; 9; 3] /\
    forall k : Z, k ∈ take 3 [5; 1; 9; 3] -> length (nodes_with_key sl k) = 1%nat.
Proof.
  apply (Insert_keeps_level0_increasing_and_keys_unique (P := ZParams false)
           16 [5; 1; 9; 3] 3 (Z_order false)).
  - compute_done.
  - simpl. lia.
Defined.

Lemma Insert_splices_relaxed_then_release_witness :
  exists lo hi sl',
    Insert (P := ZParams false) 32 7 sample = Ok sl' /\
    chain sample 0 = lo ++ hi /\
    Forall (fun a => before (key_at sample a) 7) lo /\
    Forall (fun a => ~ before (key_at sample a) 7) hi /\
    key_at sl' 5 = 7 /\ height sl' 5 = S (successful_draws 11 (rnd_ sample)).1 /\
    (forall j, (j < 12)%nat -> chain sample j = above sample j lo ++ above sample j hi) /\
    (forall j, (j < S (successful_draws 11 (rnd_ sample)).1)%nat ->
       chain sl' j = above sample j lo ++ 5%nat :: above sample j hi) /\
    (forall j, (S (successful_draws 11 (rnd_ sample)).1 <= j < 12)%nat ->
       chain sl' j = chain sample j) /\
    (forall j, (j < S (successful_draws 11 (rnd_ sample)).1)%nat ->
       slot sample j (pred_of (above sample j lo)) = Some (head (above sample j hi))) /\
    stores sl' = stores sample ++
      (if GetMaxHight sample <? Z.of_nat (S (successful_draws 11 (rnd_ sample)).1)
       then [StoreMaxHeight (Z.of_nat (S (successful_draws 11 (rnd_ sample)).1))
               memory_order_relaxed]
       else []) ++
      flat_map (fun j => [StoreNext 5 (Z.of_nat j) (head (above sample j hi))
                            memory_order_relaxed;
                          StoreNext (pred_of (above sample j lo)) (Z.of_nat j) (Some 5%nat)
                            memory_order_release])
               (seq 0 (S (successful_draws 11 (rnd_ sample)).1)).
Proof.
  apply (Insert_splices_relaxed_then_release (Z_order false) sample 7 32 sample_reachable).
  - simpl. lia.
  - rewrite sample_keys. compute_done.
Defined.

Lemma Insert_duplicate_asserts_or_corrupts_witness :
  Insert (P := ZParams false) 32 5 sample = Fault AssertionFailed /\
  exists sl' l1 l2,
    Insert (P := ZParams true) 32 5 sample_release = Ok sl' /\ keys sl' = l1 ++ 5 :: 5 :: l2.
Proof.
  split.
  - apply (Insert_duplicate_asserts_or_corrupts (Z_order false) sample 5 32
             sample_reachable); [simpl; lia | | reflexivity].
    rewrite sample_keys. compute_done.
  - apply (Insert_duplicate_asserts_or_corrupts (Z_order true) sample_release 5 32
             sample_release_reachable); [simpl; lia | | reflexivity].
    change (keys sample_release) with [1; 3; 5; 9]. compute_done.
Defined.

(** C1.  On the sample list (keys 1, 3, 5, 9) [Contains(3)] returns
    [true]; [Contains(4)], whose search ends on the node with key 5,
    takes the else-branch and returns the name [flase], which is not
    the boolean [false]. *)
Theorem Contains_of_absent_key_returns_flase :
  keys sample = [1; 3; 5; 9] /\
  Contains (P := ZParams false) 16 3 sample = Ok (ret_bool true) /\
  FindGreaterOrEqual 16 sample 4 None = Ok (Some 1%nat, None) /\
  key_at sample 1 = 5 /\
  Contains (P := ZParams false) 16 4 sample = Ok (ret_name "flase") /\
  Contains (P := ZParams false) 16 4 sample <> Ok (ret_bool false).
Proof. repeat split; try reflexivity. discriminate. Qed.

(** C5.  On the sample list, an iterator standing on the first node
    (key 1) is asked to [Seek(9)].  The node with the smallest key not
    below 9 is node 3 (key 9), which is what
    [FindGreaterOrEqual(9, nullptr)] returns; [Seek] searches for the
    iterator's own key instead and stays on key 1.  On a fresh
    iterator [Seek(9)] stops at the assertion of [key()]. *)
Theorem Seek_searches_for_the_current_key :
  exists it1 it2,
    Iterator.SeekToFirst sample (Iterator.Iterator_new sample) = Ok it1 /\
    Iterator.key sample it1 = Ok 1 /\
    FindGreaterOrEqual 16 sample 9 None = Ok (Some 3%nat, None) /\
    key_at sample 3 = 9 /\
    Iterator.Seek 16 sample 9 it1 = Ok it2 /\
    Iterator.key sample it2 = Ok 1 /\
    Iterator.Seek 16 sample 9 (Iterator.Iterator_new sample) = Fault AssertionFailed.
Proof. eexists _, _. repeat split; reflexivity. Qed.

(** C6.  On the sample list, an iterator standing on the first node
    (key 1), whose level-0 successor is node 4 (key 3), is still on key
    1 after [Next()]: a loop of [Next()] from [SeekToFirst()] never
    leaves the first key. *)
Theorem Next_leaves_the_iterator_in_place :
  exists it1,
    Iterator.SeekToFirst sample (Iterator.Iterator_new sample) = Ok it1 /\
    Iterator.Valid it1 = true /\
    Iterator.key sample it1 = Ok 1 /\
    Next sample (Iterator.node_ it1) 0 = Ok (Some 4%nat) /\
    key_at sample 4 = 3 /\
    Iterator.Next sample it1 = Ok it1 /\
    (let* it := Iterator.Next sample it1 in Iterator.key sample it) = Ok 1.
Proof. eexists. repeat split; reflexivity. Qed.

End SkipListFacts.

(** * Further properties of the skip list

    The backward searches, the rest of the iterator, and what every
    reachable list looks like. *)

Module SkipListMore.
Import SkipList SkipListFacts.

Local Open Scope Z_scope.

Section More.
Context {P : Params}.

Lemma assert_holds (c : outcome bool) : c = Ok true -> assert c = Ok tt.
Proof. intros ->. apply assert_true. Qed.

(** A list splits in one way only into a part on which [Q] holds
    throughout and a part on which it fails throughout. *)
Lemma split_unique {A : Type} (Q : A -> Prop) (l1 : list A) : forall l2 m1 m2,
  l1 ++ l2 = m1 ++ m2 ->
  Forall Q l1 -> Forall (fun a => ~ Q a) l2 ->
  Forall Q m1 -> Forall (fun a => ~ Q a) m2 ->
  l1 = m1 /\ l2 = m2.
Proof.
  induction l1 as [| a l1 IH]; intros l2 m1 m2 Heq Hl1 Hl2 Hm1 Hm2.
  - destruct m1 as [| b m1]; [done |]. simpl in Heq. subst l2.
    apply Forall_cons in Hl2 as [Hb _]. apply Forall_cons in Hm1 as [Hb' _]. done.
  - destruct m1 as [| b m1].
    + simpl in Heq. subst m2. apply Forall_cons in Hm2 as [Ha _].
      apply Forall_cons in Hl1 as [Ha' _]. done.
    + simpl in Heq. injection Heq as -> Heq.
      apply Forall_cons in Hl1 as [_ Hl1]. apply Forall_cons in Hm1 as [_ Hm1].
      by destruct (IH l2 m1 m2 Heq Hl1 Hl2 Hm1 Hm2) as [-> ->].
Qed.

Lemma ptr_eqb_refl (x : NodePtr) : ptr_eqb x x = true.
Proof. unfold ptr_eqb. by rewrite bool_decide_eq_true. Qed.

(** ** FindLessThan *)

(** [FindLessThan] walks the way [FindGreaterOrEqual] does: where the
    latter returns with predecessors recorded, the former returns, and
    what it returns is the predecessor recorded for level 0. *)
Lemma FindLessThan_loop_follows (sl : SkipList P) k fuel : forall x level prev r prev',
  FindGreaterOrEqual_loop fuel sl k x level (Some prev) = Ok (r, Some prev') ->
  (0 < length prev)%nat ->
  head_or_before sl k x = Ok true ->
  exists y, FindLessThan_loop fuel sl k x level = Ok y /\ prev' !! 0%nat = Some (Some y).
Proof.
  induction fuel as [| fuel IH]; intros x level prev r prev' Hrun Hlen Hx; [done |].
  simpl in Hrun |- *. rewrite (assert_holds _ Hx). cbn [bind].
  destruct (Next sl x level) as [next |]; cbn [bind] in Hrun |- *; [| done].
  destruct (KeyIsAfterNode sl k next) as [after |] eqn:Hafter; cbn [bind] in Hrun; [| done].
  assert (null_or_not_before sl k next = Ok (negb after) /\
          (after = true -> head_or_before sl k next = Ok true)) as [Hstop Hnext].
  { unfold KeyIsAfterNode in Hafter. unfold null_or_not_before, head_or_before.
    destruct next as [b |]; [| by injection Hafter as <-].
    destruct (deref sl (Some b)) as [nd |]; cbn [bind] in Hafter |- *; [| done].
    injection Hafter as <-. split.
    - f_equal. destruct (Z.ltb_spec (compare_ (key nd) k) 0),
        (Z.leb_spec 0 (compare_ (key nd) k)); simpl; (done || lia).
    - intros ->. by destruct (ptr_eqb _ _). }
  rewrite Hstop. cbn [bind]. destruct after; simpl.
  - apply (IH next level prev r prev'); auto.
  - destruct (prev_set prev level x) as [pa |] eqn:Hset; cbn [bind] in Hrun; [| done].
    unfold prev_set in Hset.
    destruct ((0 <=? level) && (level <? Z.of_nat (length prev))) eqn:Hrange; [| done].
    injection Hset as <-. apply andb_prop in Hrange as [H0%Z.leb_le Hl%Z.ltb_lt].
    destruct (Z.eqb_spec level 0) as [-> | Hne].
    + injection Hrun as <- <-. exists x. split; [done |].
      by rewrite list_lookup_insert_eq.
    + apply (IH x (level - 1) (<[Z.to_nat level := Some x]> prev) r prev');
        [done | by rewrite length_insert | done].
Qed.

Section Ordered.
Hypothesis Hord : strict_total_order.

Lemma last_or_head_pred (sl : SkipList P) c l : Inv sl c ->
  last_or_head sl l = Some (pred_of l).
Proof.
  intros HI. unfold last_or_head, pred_of. destruct (last l); [done |].
  apply (inv_head _ _ HI).
Qed.

Lemma FindLessThan_Inv (sl : SkipList P) c k fuel : Inv sl c ->
  (length c + Z.to_nat (max_height_ sl) <= fuel)%nat ->
  exists lo hi,
    c = lo ++ hi /\
    Forall (fun a => before (key_at sl a) k) lo /\
    Forall (fun a => ~ before (key_at sl a) k) hi /\
    FindLessThan fuel sl k = Ok (last_or_head sl lo).
Proof.
  intros HI Hfuel. pose proof (inv_max _ _ HI) as Hmax.
  destruct (FindGreaterOrEqual_spec Hord sl c k fuel (replicate 12 None) HI)
    as (lo & hi & prev' & Hcall & _ & Hc & Hlo & Hhi & _ & Hrec & _);
    [by rewrite length_replicate | done |].
  exists lo, hi. do 3 (split; [done |]).
  unfold FindGreaterOrEqual in Hcall. unfold FindLessThan.
  destruct (FindLessThan_loop_follows sl k fuel _ _ _ _ _ Hcall) as (y & -> & Hy).
  - rewrite length_replicate. lia.
  - unfold head_or_before. by rewrite ptr_eqb_refl.
  - pose proof (eq_trans (eq_sym Hy) (Hrec 0%nat ltac:(lia))) as Heq. injection Heq as ->.
    rewrite (last_or_head_pred sl c lo HI). do 3 f_equal.
    apply above_0. apply Forall_forall. intros a Ha.
    assert (a ∈ c) as Hac by (rewrite Hc; set_solver).
    by destruct (Inv_elem _ _ _ HI Hac) as (_ & ? & _).
Qed.

(** X1.  On every reachable list, with fuel for one pass, [FindLessThan]
    returns (its assertion never fails): the level-0 chain splits into
    the nodes before the key and the nodes not before it, and the result
    is the last node before the key, or the head when no node is before
    the key. *)
Theorem FindLessThan_finds_last_before (sl : SkipList P) k fuel :
  reachable sl -> (length (nodes sl) + 12 <= fuel)%nat ->
  exists lo hi,
    chain sl 0 = lo ++ hi /\
    Forall (fun a => before (key_at sl a) k) lo /\
    Forall (fun a => ~ before (key_at sl a) k) hi /\
    FindLessThan fuel sl k = Ok (last_or_head sl lo).
Proof.
  intros Hreach Hfuel. destruct (reachable_Inv Hord sl Hreach) as [c HI].
  rewrite (chain0_Inv sl c HI).
  exact (FindLessThan_Inv sl c k fuel HI (Inv_fuel sl c fuel HI Hfuel)).
Qed.

(** ** The iterator on a reachable list *)

Lemma before_asym a b : before a b -> ~ before b a.
Proof. intros Hab Hba. exact (before_irrefl Hord a (before_trans Hord a b a Hab Hba)). Qed.

(** Around a node of the chain: the nodes in front are before its key,
    the node and those behind it are not. *)
Lemma chain_around (sl : SkipList P) c l1 a l2 : Inv sl c -> c = l1 ++ a :: l2 ->
  Forall (fun b => before (key_at sl b) (key_at sl a)) l1 /\
  Forall (fun b => ~ before (key_at sl b) (key_at sl a)) (a :: l2).
Proof.
  intros HI Hc. pose proof (inv_sorted _ _ HI) as Hs. rewrite Hc in Hs.
  apply StronglySorted_app in Hs as (Hcross & _ & Hs2).
  apply StronglySorted_cons in Hs2 as [Ha _]. split.
  - apply Forall_forall. intros b Hb. apply Hcross; set_solver.
  - constructor; [apply (before_irrefl Hord) |].
    eapply Forall_impl; [exact Ha |]. intros b Hab. by apply before_asym.
Qed.

Lemma Prev_Inv (sl : SkipList P) c l1 a l2 fuel : Inv sl c -> c = l1 ++ a :: l2 ->
  (length c + Z.to_nat (max_height_ sl) <= fuel)%nat ->
  Iterator.Prev fuel sl (Iterator.mkIterator (Some a)) = Ok (Iterator.mkIterator (last l1)).
Proof.
  intros HI Hc Hfuel.
  assert (a ∈ c) as Hac by (rewrite Hc; set_solver).
  destruct (Inv_elem _ _ _ HI Hac) as (Hlen & _).
  destruct (deref_key_at sl a ltac:(lia)) as (nd & _ & Hderef & Hkey).
  unfold Iterator.Prev. cbn [Iterator.Valid Iterator.node_].
  rewrite assert_true. cbn [bind]. rewrite Hderef. cbn [bind]. rewrite Hkey.
  destruct (FindLessThan_Inv sl c (key_at sl a) fuel HI Hfuel)
    as (lo & hi & Hsplit & Hlo & Hhi & ->).
  destruct (chain_around sl c l1 a l2 HI Hc) as [Hl1 Hl2].
  destruct (split_unique (fun b => before (key_at sl b) (key_at sl a)) lo hi l1 (a :: l2))
    as [-> ->]; [congruence | done | done | done | done |].
  cbn [bind]. f_equal. f_equal. unfold last_or_head, ptr_eqb.
  destruct (last l1) as [x |] eqn:Hlast.
  - rewrite bool_decide_eq_false_2; [done |]. rewrite (inv_head _ _ HI). intros [= ->].
    apply last_Some_elem_of in Hlast.
    assert (O ∈ c) as H0 by (rewrite Hc; set_solver).
    apply (Inv_elem _ _ _ HI) in H0. lia.
  - by rewrite bool_decide_eq_true_2.
Qed.

(** X3.  On a reachable list, [Prev] moves an iterator that stands on a
    node of the level-0 chain to the node in front of it, and leaves it
    on no node when it stood on the first one. *)
Theorem Prev_moves_to_the_node_in_front (sl : SkipList P) l1 a l2 fuel :
  reachable sl -> (length (nodes sl) + 12 <= fuel)%nat ->
  chain sl 0 = l1 ++ a :: l2 ->
  Iterator.Prev fuel sl (Iterator.mkIterator (Some a)) = Ok (Iterator.mkIterator (last l1)).
Proof.
  intros Hreach Hfuel Hc. destruct (reachable_Inv Hord sl Hreach) as [c HI].
  rewrite (chain0_Inv sl c HI) in Hc.
  exact (Prev_Inv sl c l1 a l2 fuel HI Hc (Inv_fuel sl c fuel HI Hfuel)).
Qed.

(** ** FindLast *)

Lemma FindLast_loop_Inv (sl : SkipList P) c : Inv sl c ->
  forall fuel lo post level,
  c = lo ++ post ->
  (level < height sl (pred_of lo))%nat ->
  (length post + level < fuel)%nat ->
  FindLast_loop fuel sl (Some (pred_of lo)) (Z.of_nat level) = Ok (Some (pred_of c)).
Proof.
  intros HI. induction fuel as [| fuel IH]; intros lo post level Hc Hlevel Hfuel; [lia |].
  simpl. rewrite (Next_slot _ _ _ _ (slot_pred_of _ _ _ _ _ HI Hc Hlevel)). cbn [bind].
  destruct (head (above sl level post)) as [b |] eqn:Hhead.
  - pose proof Hhead as Hsplit. apply head_filter_Some in Hsplit as (p1 & p2 & -> & _).
    assert (level < height sl b)%nat as Hbh.
    { apply head_Some_elem_of in Hhead. unfold above in Hhead.
      by apply list_elem_of_filter in Hhead as [? _]. }
    rewrite <- (pred_of_snoc (lo ++ p1) b).
    apply (IH ((lo ++ p1) ++ [b]) p2 level).
    + rewrite Hc. by rewrite <- !(assoc_L (++)).
    + by rewrite pred_of_snoc.
    + rewrite length_app in Hfuel. simpl in Hfuel. lia.
  - apply head_None in Hhead. destruct level as [| level].
    + change (Z.of_nat 0 =? 0) with true. cbv iota.
      rewrite above_0 in Hhead.
      * subst post. by rewrite Hc, (right_id_L [] (++)).
      * pose proof (inv_nodes _ _ HI) as Hn. rewrite Hc in Hn.
        apply Forall_app in Hn as [_ Hn]. eapply Forall_impl; [exact Hn |]. naive_solver.
    + destruct (Z.eqb_spec (Z.of_nat (S level)) 0) as [Hz | _]; [lia |].
      replace (Z.of_nat (S level) - 1) with (Z.of_nat level) by lia.
      apply (IH lo post level); [done | lia | lia].
Qed.

Lemma FindLast_Inv (sl : SkipList P) c fuel : Inv sl c ->
  (length c + Z.to_nat (max_height_ sl) <= fuel)%nat ->
  FindLast fuel sl = Ok (last_or_head sl c).
Proof.
  intros HI Hfuel. pose proof (inv_max _ _ HI) as Hmax.
  unfold FindLast, GetMaxHight. rewrite (inv_head _ _ HI), (last_or_head_pred sl c c HI).
  replace (max_height_ sl - 1) with (Z.of_nat (Z.to_nat (max_height_ sl - 1))) by lia.
  apply (FindLast_loop_Inv sl c HI fuel [] c); [done | | lia].
  change (pred_of []) with O. rewrite (inv_head_height _ _ HI). lia.
Qed.

(** X2.  On every reachable list, with fuel for one pass, [FindLast]
    returns the last node of the level-0 chain, and the head when the
    list is empty. *)
Theorem FindLast_finds_the_last_node (sl : SkipList P) fuel :
  reachable sl -> (length (nodes sl) + 12 <= fuel)%nat ->
  FindLast fuel sl = Ok (last_or_head sl (chain sl 0)).
Proof.
  intros Hreach Hfuel. destruct (reachable_Inv Hord sl Hreach) as [c HI].
  rewrite (chain0_Inv sl c HI).
  exact (FindLast_Inv sl c fuel HI (Inv_fuel sl c fuel HI Hfuel)).
Qed.

Lemma last_not_head (sl : SkipList P) c l : Inv sl c -> l ⊆ c ->
  (if ptr_eqb (last_or_head sl l) (head_ sl) then None else last_or_head sl l) = last l.
Proof.
  intros HI Hsub. unfold last_or_head, ptr_eqb. destruct (last l) as [x |] eqn:Hlast.
  - rewrite bool_decide_eq_false_2; [done |]. rewrite (inv_head _ _ HI). intros [= ->].
    apply last_Some_elem_of, Hsub in Hlast. apply (Inv_elem _ _ _ HI) in Hlast. lia.
  - by rewrite bool_decide_eq_true_2.
Qed.

(** The keys of the chain, from the node with the smallest key to the
    node with the largest. *)
Lemma chain_ends (sl : SkipList P) c : Inv sl c ->
  (forall a l, c = a :: l -> Forall (fun b => before (key_at sl a) (key_at sl b)) l) /\
  (forall l a, c = l ++ [a] -> Forall (fun b => before (key_at sl b) (key_at sl a)) l).
Proof.
  intros HI. pose proof (inv_sorted _ _ HI) as Hs. split.
  - intros a l ->. by apply StronglySorted_cons in Hs as [? _].
  - intros l a ->. apply StronglySorted_app in Hs as (Hcross & _ & _).
    apply Forall_forall. intros b Hb. apply Hcross; set_solver.
Qed.

(** X4.  On a reachable list [SeekToLast] puts the iterator on the last
    node of the level-0 chain, whose key every other key of the list is
    before; on an empty list the iterator is left on no node. *)
Theorem SeekToLast_lands_on_the_largest_key (sl : SkipList P) it fuel :
  reachable sl -> (length (nodes sl) + 12 <= fuel)%nat ->
  Iterator.SeekToLast fuel sl it = Ok (Iterator.mkIterator (last (chain sl 0))) /\
  (forall l a, chain sl 0 = l ++ [a] ->
     Forall (fun b => before (key_at sl b) (key_at sl a)) l).
Proof.
  intros Hreach Hfuel. destruct (reachable_Inv Hord sl Hreach) as [c HI].
  rewrite (chain0_Inv sl c HI). split; [| apply (chain_ends sl c HI)].
  unfold Iterator.SeekToLast.
  rewrite (FindLast_Inv sl c fuel HI (Inv_fuel sl c fuel HI Hfuel)). cbn [bind].
  do 2 f_equal. by apply (last_not_head sl c c HI).
Qed.

(** X5.  On a reachable list [SeekToFirst] puts the iterator on the
    first node of the level-0 chain, whose key is before every other key
    of the list; on an empty list the iterator is left on no node. *)
Theorem SeekToFirst_lands_on_the_smallest_key (sl : SkipList P) it :
  reachable sl ->
  Iterator.SeekToFirst sl it = Ok (Iterator.mkIterator (head (chain sl 0))) /\
  (forall a l, chain sl 0 = a :: l ->
     Forall (fun b => before (key_at sl a) (key_at sl b)) l).
Proof.
  intros Hreach. destruct (reachable_Inv Hord sl Hreach) as [c HI].
  rewrite (chain0_Inv sl c HI). split; [| apply (chain_ends sl c HI)].
  unfold Iterator.SeekToFirst. rewrite (inv_head _ _ HI).
  assert (slot sl 0 0 = Some (head c)) as Hslot.
  { pose proof (slot_pred_of sl c [] c 0 HI eq_refl) as Hs.
    change (pred_of []) with O in Hs. rewrite (inv_head_height _ _ HI) in Hs.
    rewrite Hs by lia. do 2 f_equal. apply above_0.
    eapply Forall_impl; [apply (inv_nodes _ _ HI) |]. naive_solver. }
  change 0 with (Z.of_nat 0). by rewrite (Next_slot _ _ _ _ Hslot).
Qed.

(** ** A backward scan *)

Lemma StronglySorted_flip {A} (R : A -> A -> Prop) (l : list A) :
  StronglySorted R l -> StronglySorted (fun a b => R b a) (reverse l).
Proof.
  induction 1 as [| x l Hs IH Hx]; [constructor |].
  rewrite reverse_cons. apply StronglySorted_app_2; [| done | repeat constructor].
  intros y z Hy ->%list_elem_of_singleton. rewrite Forall_forall in Hx.
  apply Hx. by apply elem_of_reverse.
Qed.

Lemma scan_backward_Inv (sl : SkipList P) c fuel : Inv sl c ->
  (length c + Z.to_nat (max_height_ sl) <= fuel)%nat ->
  forall l rest rounds, c = l ++ rest -> (length l < rounds)%nat ->
  scan_backward rounds fuel sl (Iterator.mkIterator (last l))
    = Ok (reverse (key_at sl <$> l)).
Proof.
  intros HI Hfuel l. induction l as [| a l IH] using rev_ind; intros rest rounds Hc Hrounds.
  - destruct rounds as [| rounds]; [simpl in Hrounds; lia | done].
  - destruct rounds as [| rounds]; [lia |]. rewrite last_snoc.
    rewrite <- (assoc_L (++)) in Hc. simpl in Hc.
    assert (a ∈ c) as Hac by (rewrite Hc; set_solver).
    destruct (Inv_elem _ _ _ HI Hac) as (Hlen & _).
    destruct (deref_key_at sl a ltac:(lia)) as (nd & _ & Hderef & Hkey).
    cbn [scan_backward Iterator.Valid Iterator.node_]. unfold Iterator.key.
    cbn [Iterator.Valid Iterator.node_]. rewrite assert_true. cbn [bind].
    rewrite Hderef. cbn [bind]. rewrite (Prev_Inv sl c l a rest fuel HI Hc Hfuel). cbn [bind].
    rewrite (IH (a :: rest) rounds Hc).
    + cbn [bind]. by rewrite fmap_app, reverse_app, Hkey.
    + rewrite length_app in Hrounds. simpl in Hrounds. lia.
Qed.

(** X6.  On a reachable list, [SeekToLast] followed by [key] and [Prev]
    while the iterator is valid reads the keys of the list from the
    largest to the smallest and then stops. *)
Theorem scan_backward_reads_keys_descending (sl : SkipList P) rounds fuel :
  reachable sl -> (length (nodes sl) + 12 <= fuel)%nat ->
  (length (nodes sl) <= rounds)%nat ->
  (let* it := Iterator.SeekToLast fuel sl (Iterator.Iterator_new sl) in
   scan_backward rounds fuel sl it) = Ok (reverse (keys sl)) /\
  StronglySorted (fun a b => before b a) (reverse (keys sl)).
Proof.
  intros Hreach Hfuel Hrounds. destruct (reachable_Inv Hord sl Hreach) as [c HI].
  pose proof (Inv_fuel sl c fuel HI Hfuel) as Hfuel'. split.
  - unfold Iterator.SeekToLast. rewrite (FindLast_Inv sl c fuel HI Hfuel'). cbn [bind].
    transitivity (scan_backward rounds fuel sl (Iterator.mkIterator (last c)));
      [do 2 f_equal; by apply (last_not_head sl c c HI) |].
    rewrite (keys_Inv sl c HI).
    apply (scan_backward_Inv sl c fuel HI Hfuel' c []); [by rewrite (right_id_L [] (++)) |].
    pose proof (Inv_length _ _ HI). lia.
  - rewrite (keys_Inv sl c HI). apply StronglySorted_flip, (Inv_keys_sorted sl c HI).
Qed.

(** ** What [Insert] leaves behind *)

Lemma Insert_result (sl sl' : SkipList P) c k fuel :
  Inv sl c -> k ∉ keys sl -> Insert fuel k sl = Ok sl' ->
  exists lo hi, c = lo ++ hi /\
    Forall (fun a => before (key_at sl a) k) lo /\
    Forall (fun a => ~ before (key_at sl a) k) hi /\
    Forall (fun a => key_at sl a <> k) c /\
    Inv sl' (lo ++ length (nodes sl) :: hi) /\
    length (nodes sl') = S (length (nodes sl)) /\
    head_ sl' = head_ sl /\
    max_height_ sl' =
      Z.max (max_height_ sl) (Z.of_nat (S (successful_draws 11 (rnd_ sl)).1)) /\
    (forall a, key_at sl' a = if decide (a = length (nodes sl)) then k else key_at sl a) /\
    (forall a, height sl' a =
       if decide (a = length (nodes sl)) then S (successful_draws 11 (rnd_ sl)).1
       else height sl a).
Proof.
  intros HI Hk Hrun. rewrite (keys_Inv sl c HI) in Hk.
  pose proof (inv_max _ _ HI) as Hmax.
  apply (Insert_more_fuel _ _ _ _ (fuel `max` (length c + 12))) in Hrun; [| lia].
  assert (Forall (fun a => key_at sl a <> k) c) as Habsent.
  { apply Forall_forall. intros a Ha Heq. apply Hk. rewrite <- Heq.
    by apply list_elem_of_fmap_2. }
  destruct (Insert_spec Hord sl c k (fuel `max` (length c + 12)) HI ltac:(lia)
              (fun _ => Habsent))
    as (lo & hi & sl'' & Hrun' & Hc & Hlo & Hhi & R1 & R2 & R3 & R4 & R5 & R6 & R7 & _).
  assert (sl'' = sl') as -> by congruence.
  pose proof (successful_draws_le 11 (rnd_ sl)) as Hdraws.
  destruct (spliced_Inv Hord sl sl' c lo hi k (S (successful_draws 11 (rnd_ sl)).1)
              HI Hc Hlo Hhi Habsent ltac:(lia) R1 R2 R3 R5 R6 R7) as [HI' _].
  by exists lo, hi.
Qed.

(** X11.  [Insert] of a key that is not in a reachable list returns; it
    allocates one node, leaves the head and the key and height of every
    older node as they were, and the keys of the list afterwards are the
    keys before with the new key put in at its place in the order. *)
Theorem Insert_adds_one_node_in_key_order (sl : SkipList P) k fuel :
  reachable sl -> (length (nodes sl) + 12 <= fuel)%nat -> k ∉ keys sl ->
  exists sl' l1 l2,
    Insert fuel k sl = Ok sl' /\
    keys sl = l1 ++ l2 /\ keys sl' = l1 ++ k :: l2 /\
    Forall (fun x => before x k) l1 /\ Forall (fun x => before k x) l2 /\
    length (nodes sl') = S (length (nodes sl)) /\ head_ sl' = head_ sl /\
    forall a, (a < length (nodes sl))%nat ->
      key_at sl' a = key_at sl a /\ height sl' a = height sl a.
Proof.
  intros Hreach Hfuel Hk. destruct (reachable_Inv Hord sl Hreach) as [c HI].
  assert (Forall (fun a => key_at sl a <> k) c) as Habsent.
  { rewrite (keys_Inv sl c HI) in Hk. apply Forall_forall. intros a Ha Heq. apply Hk.
    rewrite <- Heq. by apply list_elem_of_fmap_2. }
  destruct (Insert_Inv Hord sl c k fuel HI (Inv_fuel sl c fuel HI Hfuel) Habsent)
    as (lo0 & hi0 & sl' & Hrun & _ & _ & _ & _).
  destruct (Insert_result sl sl' c k fuel HI Hk Hrun)
    as (lo & hi & Hc & Hlo & Hhi & _ & HI' & Hlen & Hhead & _ & Hkey & Hheight).
  exists sl', (key_at sl <$> lo), (key_at sl <$> hi). split; [done |].
  assert (forall a, a ∈ c -> a <> length (nodes sl)) as Hcn.
  { intros a Ha. apply (Inv_elem _ _ _ HI) in Ha. lia. }
  assert (forall l, l ⊆ c -> key_at sl' <$> l = key_at sl <$> l) as Hkeys.
  { intros l Hl. apply list_fmap_ext. intros i a Ha. rewrite Hkey.
    rewrite decide_False; [done |]. apply Hcn, Hl. by eapply list_elem_of_lookup_2. }
  split; [by rewrite (keys_Inv sl c HI), Hc, fmap_app |].
  split.
  { rewrite (keys_Inv sl' _ HI'), fmap_app, fmap_cons.
    rewrite !Hkeys by (rewrite Hc; set_solver).
    by rewrite Hkey, decide_True. }
  split; [by apply Forall_fmap |]. split.
  { apply Forall_fmap. rewrite Hc in Habsent. apply Forall_app in Habsent as [_ Hne].
    apply Forall_forall. intros a Ha. rewrite Forall_forall in Hhi, Hne.
    apply (not_before_ne_after Hord); [by apply Hhi | by apply Hne]. }
  split; [done |]. split; [done |].
  intros a Ha. rewrite Hkey, Hheight. by rewrite !decide_False by lia.
Qed.

(** ** The height hint *)

Lemma SkipList_new_fresh (sl : SkipList P) : SkipList_new = Ok sl ->
  Inv sl [] /\ max_height_ sl = 1 /\ head_ sl = Some O.
Proof.
  intros Hnew. destruct SkipList_new_Inv as (sl0 & Hnew0 & HI0).
  assert (sl0 = sl) as -> by congruence. split; [done |]. split; [| apply (inv_head _ _ HI0)].
  revert Hnew. unfold SkipList_new, SetNext, assert.
  destruct NDEBUG; vm_compute; by intros [= <-].
Qed.

Lemma reachable_tight (sl : SkipList P) : reachable sl ->
  exists c, Inv sl c /\
    (max_height_ sl = 1 \/ exists a, a ∈ c /\ Z.of_nat (height sl a) = max_height_ sl).
Proof.
  induction 1 as [sl Hnew | fuel k sl sl' _ (c & HI & Ht) Hk Hrun].
  - exists []. destruct (SkipList_new_fresh sl Hnew) as (HI & Hmax & _). auto.
  - destruct (Insert_result sl sl' c k fuel HI Hk Hrun)
      as (lo & hi & Hc & _ & _ & _ & HI' & _ & _ & Hmax & _ & Hheight).
    eexists. split; [exact HI' |].
    destruct (Z.max_spec (max_height_ sl) (Z.of_nat (S (successful_draws 11 (rnd_ sl)).1)))
      as [[Hlt Heq] | [Hge Heq]].
    + right. exists (length (nodes sl)). split; [set_solver |].
      rewrite Hheight, decide_True by done. lia.
    + destruct Ht as [H1 | (a & Ha & Haeq)]; [left; lia |].
      right. exists a. split; [rewrite Hc in Ha; set_solver |].
      rewrite Hheight, decide_False; [lia |]. apply (Inv_elem _ _ _ HI) in Ha. lia.
Qed.

(** X10.  On a reachable list the height hint is tight: no node is
    taller than [GetMaxHight()], and the hint is 1 or the height of a
    node of the list. *)
Theorem GetMaxHight_is_the_height_of_the_tallest_node (sl : SkipList P) :
  reachable sl ->
  (forall a, a ∈ chain sl 0 -> 1 <= Z.of_nat (height sl a) <= GetMaxHight sl) /\
  (GetMaxHight sl = 1 \/
   exists a, a ∈ chain sl 0 /\ Z.of_nat (height sl a) = GetMaxHight sl).
Proof.
  intros Hreach. destruct (reachable_tight sl Hreach) as (c & HI & Ht).
  rewrite (chain0_Inv sl c HI). split; [| done].
  intros a Ha. apply (Inv_elem _ _ _ HI) in Ha. unfold GetMaxHight. lia.
Qed.

(** ** Insert, then Contains *)

(** X7.  Pairwise different keys are inserted into a fresh list and
    then looked up: every [Insert] returns, [Contains] returns [true]
    for each inserted key, and for every other key it takes the branch
    that returns the name [flase]. *)
Theorem Contains_after_Inserts (ks : list Key) (fuel : nat) :
  NoDup ks -> (length ks + 12 <= fuel)%nat ->
  exists sl0 sl : SkipList P,
    SkipList_new = Ok sl0 /\ insert_all fuel ks sl0 = Ok sl /\
    forall k, (k ∈ ks -> Contains fuel k sl = Ok (ret_bool true)) /\
              (k ∉ ks -> Contains fuel k sl = Ok (ret_name "flase")).
Proof.
  intros Hnd Hfuel. destruct SkipList_new_Inv as (sl0 & Hnew & HI0).
  destruct (insert_all_Inv Hord fuel ks sl0 [] HI0 Hnd) as (sl & c & Hrun & HI & Hperm).
  - intros k _. simpl. apply not_elem_of_nil.
  - simpl. lia.
  - exists sl0, sl. split; [done |]. split; [done |]. intros k.
    simpl in Hperm. pose proof (inv_max _ _ HI) as Hmax.
    assert (length c = length ks) as Hlen.
    { by rewrite <- (length_fmap (key_at sl) c), Hperm. }
    rewrite <- Hperm. apply (Contains_spec Hord sl c k fuel HI). lia.
Qed.

(** ** Forward pointers *)

(** Every node of a well-formed list closes a front part of the chain. *)
Lemma node_split (sl : SkipList P) c a : Inv sl c -> (a < length (nodes sl))%nat ->
  exists lo post, c = lo ++ post /\ pred_of lo = a /\
    (a <> O -> Forall (fun b => before (key_at sl a) (key_at sl b)) post).
Proof.
  intros HI Ha. destruct a as [| a].
  - by exists [], c.
  - assert (S a ∈ c) as Hin.
    { rewrite (inv_all _ _ HI). apply elem_of_seq. lia. }
    apply list_elem_of_split in Hin as (l1 & l2 & Hc). exists (l1 ++ [S a]), l2.
    split; [by rewrite <- (assoc_L (++)) |]. split; [apply pred_of_snoc |].
    intros _. pose proof (inv_sorted _ _ HI) as Hs. rewrite Hc in Hs.
    apply StronglySorted_app in Hs as (_ & _ & Hs).
    by apply StronglySorted_cons in Hs as [? _].
Qed.

(** X8.  In a reachable list every forward pointer below a node's
    height has been written: [Next(n)] on a node with more than [n]
    levels returns, and what it returns is [nullptr] or a node of the
    list that has level [n] too and, unless the pointer is the head's,
    a key behind the node's own. *)
Theorem Next_below_the_height_is_initialised (sl : SkipList P) a n :
  reachable sl -> (a < length (nodes sl))%nat -> (n < height sl a)%nat ->
  exists q, Next sl (Some a) (Z.of_nat n) = Ok q /\
    match q with
    | None => True
    | Some b => (0 < b < length (nodes sl))%nat /\ (n < height sl b)%nat /\
                (a <> O -> before (key_at sl a) (key_at sl b))
    end.
Proof.
  intros Hreach Ha Hn. destruct (reachable_Inv Hord sl Hreach) as [c HI].
  destruct (node_split sl c a HI Ha) as (lo & post & Hc & Hpred & Hsorted).
  pose proof (slot_pred_of sl c lo post n HI Hc) as Hslot. rewrite Hpred in Hslot.
  exists (head (above sl n post)). split; [apply Next_slot; auto |].
  destruct (head (above sl n post)) as [b |] eqn:Hhead; [| done].
  apply head_Some_elem_of in Hhead. unfold above in Hhead.
  apply list_elem_of_filter in Hhead as [Hb Hin].
  assert (b ∈ c) as Hbc by (rewrite Hc; set_solver).
  destruct (Inv_elem _ _ _ HI Hbc) as (Hlen & _). split; [done |]. split; [done |].
  intros Hne. specialize (Hsorted Hne). rewrite Forall_forall in Hsorted. auto.
Qed.

Lemma filter_sublist_mono {A} (Q1 Q2 : A -> Prop)
    `{!forall x, Decision (Q1 x)} `{!forall x, Decision (Q2 x)} (l : list A) :
  (forall x, Q1 x -> Q2 x) -> filter Q1 l `sublist_of` filter Q2 l.
Proof.
  intros Himp. induction l as [| x l IH]; [done |]. rewrite !filter_cons.
  destruct (decide (Q1 x)) as [H1 | H1], (decide (Q2 x)) as [H2 | H2].
  - by apply sublist_skip.
  - by destruct H2; auto.
  - by apply sublist_cons.
  - done.
Qed.

(** X9.  The levels of a reachable list are nested: the chain of level
    [j] is the level-0 chain with the nodes of [j] levels or fewer left
    out, so it is a sublist of the chain of every lower level, and the
    levels from the height hint upwards are empty. *)
Theorem levels_are_nested (sl : SkipList P) j :
  reachable sl -> (j < 12)%nat ->
  chain sl j = above sl j (chain sl 0) /\
  (forall i, (i <= j)%nat -> chain sl j `sublist_of` chain sl i) /\
  (GetMaxHight sl <= Z.of_nat j -> chain sl j = []).
Proof.
  intros Hreach Hj. destruct (reachable_Inv Hord sl Hreach) as [c HI].
  rewrite (chain0_Inv sl c HI), (chain_Inv sl c j HI Hj). split; [done |]. split.
  - intros i Hi. rewrite (chain_Inv sl c i HI) by lia.
    apply filter_sublist_mono. intros x. simpl. lia.
  - intros Hmax. unfold above. destruct (filter _ c) as [| b l] eqn:Hf; [done |].
    assert (b ∈ filter (fun a => (j < height sl a)%nat) c) as Hb by (rewrite Hf; set_solver).
    apply list_elem_of_filter in Hb as [Hb Hin]. apply (Inv_elem _ _ _ HI) in Hin.
    unfold GetMaxHight in Hmax. lia.
Qed.

(** X12.  On a reachable list the two searches meet: the level-0
    successor of the node [FindLessThan(k)] returns is the node
    [FindGreaterOrEqual(k, nullptr)] returns. *)
Theorem FindLessThan_is_in_front_of_FindGreaterOrEqual (sl : SkipList P) k fuel :
  reachable sl -> (length (nodes sl) + 12 <= fuel)%nat ->
  exists x y,
    FindLessThan fuel sl k = Ok x /\
    FindGreaterOrEqual fuel sl k None = Ok (y, None) /\
    Next sl x 0 = Ok y.
Proof.
  intros Hreach Hfuel. destruct (reachable_Inv Hord sl Hreach) as [c HI].
  pose proof (Inv_fuel sl c fuel HI Hfuel) as Hfuel'.
  destruct (FindLessThan_Inv sl c k fuel HI Hfuel') as (lo & hi & Hc & Hlo & Hhi & Hless).
  destruct (FindGreaterOrEqual_spec Hord sl c k fuel (replicate 12 None) HI)
    as (lo' & hi' & _ & _ & Hge & Hc' & Hlo' & Hhi' & _);
    [by rewrite length_replicate | done |].
  destruct (split_unique (fun a => before (key_at sl a) k) lo hi lo' hi') as [<- <-];
    [congruence | done .. |].
  exists (last_or_head sl lo), (head hi). split; [done |]. split; [done |].
  rewrite (last_or_head_pred sl c lo HI). change 0 with (Z.of_nat 0). apply Next_slot.
  rewrite (slot_pred_of sl c lo hi 0 HI Hc).
  - do 2 f_equal. apply above_0. pose proof (inv_nodes _ _ HI) as Hn. rewrite Hc in Hn.
    apply Forall_app in Hn as [_ Hn]. eapply Forall_impl; [exact Hn |]. naive_solver.
  - destruct lo as [| b lo0] using rev_ind.
    + change (pred_of []) with O. rewrite (inv_head_height _ _ HI). lia.
    + rewrite pred_of_snoc. assert (b ∈ c) as Hb by (rewrite Hc; set_solver).
      apply (Inv_elem _ _ _ HI) in Hb. lia.
Qed.

(** ** The iterator *)

Lemma Iterator_key_Inv (sl : SkipList P) c a : Inv sl c -> a ∈ c ->
  Iterator.key sl (Iterator.mkIterator (Some a)) = Ok (key_at sl a).
Proof.
  intros HI Ha. destruct (Inv_elem _ _ _ HI Ha) as (Hlen & _).
  destruct (deref_key_at sl a ltac:(lia)) as (nd & _ & Hderef & Hkey).
  unfold Iterator.key. cbn [Iterator.Valid Iterator.node_]. rewrite assert_true. cbn [bind].
  rewrite Hderef. cbn [bind]. by rewrite Hkey.
Qed.


Lemma SeekToFirst_Inv (sl : SkipList P) c it : Inv sl c ->
  Iterator.SeekToFirst sl it = Ok (Iterator.mkIterator (head c)).
Proof.
  intros HI. unfold Iterator.SeekToFirst. rewrite (inv_head _ _ HI).
  assert (slot sl 0 0 = Some (head c)) as Hslot.
  { pose proof (slot_pred_of sl c [] c 0 HI eq_refl) as Hs.
    change (pred_of []) with O in Hs. rewrite (inv_head_height _ _ HI) in Hs.
    rewrite Hs by lia. do 2 f_equal. apply above_0.
    eapply Forall_impl; [apply (inv_nodes _ _ HI) |]. naive_solver. }
  change 0 with (Z.of_nat 0). by rewrite (Next_slot _ _ _ _ Hslot).
Qed.

Lemma Iterator_Next_Inv (sl : SkipList P) c a : Inv sl c -> a ∈ c ->
  Iterator.Next sl (Iterator.mkIterator (Some a)) = Ok (Iterator.mkIterator (Some a)).
Proof.
  intros HI Ha. destruct (Inv_elem _ _ _ HI Ha) as (Hlen & Hh & _).
  destruct (node_split sl c a HI ltac:(lia)) as (lo & post & Hc & Hpred & _).
  pose proof (slot_pred_of sl c lo post 0 HI Hc) as Hslot. rewrite Hpred in Hslot.
  unfold Iterator.Next. cbn [Iterator.Valid Iterator.node_]. rewrite assert_true. cbn [bind].
  change 0 with (Z.of_nat 0). by rewrite (Next_slot _ _ _ _ (Hslot ltac:(lia))).
Qed.

(** X14.  On a reachable list [Next] returns with an iterator that
    stands on a node of the list still on that node, and therefore the
    forward scan [for (it.SeekToFirst(); it.Valid(); it.Next())] of a
    list that is not empty does not end within any number of rounds. *)
Theorem forward_scan_stays_on_the_first_node (sl : SkipList P) l1 a l2 rounds :
  reachable sl -> chain sl 0 = l1 ++ a :: l2 ->
  Iterator.Next sl (Iterator.mkIterator (Some a)) = Ok (Iterator.mkIterator (Some a)) /\
  (let* it := Iterator.SeekToFirst sl (Iterator.Iterator_new sl) in
   scan_forward rounds sl it) = Fault OutOfFuel.
Proof.
  intros Hreach Hchain. destruct (reachable_Inv Hord sl Hreach) as [c HI].
  rewrite (chain0_Inv sl c HI) in Hchain.
  split; [apply (Iterator_Next_Inv sl c a HI); rewrite Hchain; set_solver |].
  rewrite (SeekToFirst_Inv sl c _ HI). cbn [bind].
  destruct c as [| b c']; [by destruct l1 |]. change (head (b :: c')) with (Some b).
  assert (b ∈ b :: c') as Hb by set_solver.
  induction rounds as [| rounds IH]; [done |].
  cbn [scan_forward Iterator.Valid Iterator.node_].
  rewrite (Iterator_key_Inv sl _ b HI Hb). cbn [bind].
  rewrite (Iterator_Next_Inv sl _ b HI Hb). cbn [bind]. by rewrite IH.
Qed.


(** X16.  The constructor returns a list of one node, the head, with the
    height hint 1 and no keys.  On this list every search comes back
    empty-handed: [Contains] takes the branch that returns the name
    [flase], [FindGreaterOrEqual] returns [nullptr], [FindLessThan] and
    [FindLast] return the head, and [SeekToFirst] and [SeekToLast] leave
    the iterator on no node. *)
Theorem fresh_list_is_empty (k : Key) (fuel : nat) it :
  (0 < fuel)%nat ->
  exists sl : SkipList P,
    SkipList_new = Ok sl /\
    length (nodes sl) = 1%nat /\ GetMaxHight sl = 1 /\ keys sl = [] /\
    Contains fuel k sl = Ok (ret_name "flase") /\
    FindGreaterOrEqual fuel sl k None = Ok (None, None) /\
    FindLessThan fuel sl k = Ok (head_ sl) /\
    FindLast fuel sl = Ok (head_ sl) /\
    Iterator.SeekToFirst sl it = Ok (Iterator.Iterator_new sl) /\
    Iterator.SeekToLast fuel sl it = Ok (Iterator.Iterator_new sl).
Proof.
  intros Hfuel. destruct SkipList_new_Inv as (sl & Hnew & HI).
  destruct (SkipList_new_fresh sl Hnew) as (_ & Hmax & _).
  assert (length (@nil nat) + Z.to_nat (max_height_ sl) <= fuel)%nat as Hfuel'
    by (rewrite Hmax; simpl; lia).
  exists sl. split; [done |].
  split; [pose proof (Inv_length _ _ HI) as Hl; simpl in Hl; lia |].
  split; [done |]. split; [by rewrite (keys_Inv sl [] HI) |].
  split; [apply (Contains_spec Hord sl [] k fuel HI Hfuel'); apply not_elem_of_nil |].
  split.
  { destruct (FindGreaterOrEqual_spec Hord sl [] k fuel (replicate 12 None) HI)
      as (lo & hi & _ & _ & Hge & Hc & _); [by rewrite length_replicate | done |].
    symmetry in Hc. apply app_eq_nil in Hc as [_ ->]. exact Hge. }
  split.
  { destruct (FindLessThan_Inv sl [] k fuel HI Hfuel') as (lo & hi & Hc & _ & _ & Hless).
    symmetry in Hc. apply app_eq_nil in Hc as [-> _]. exact Hless. }
  assert (FindLast fuel sl = Ok (head_ sl)) as Hlast
    by apply (FindLast_Inv sl [] fuel HI Hfuel').
  split; [done |]. split; [apply (SeekToFirst_Inv sl [] it HI) |].
  unfold Iterator.SeekToLast. rewrite Hlast. cbn [bind]. by rewrite ptr_eqb_refl.
Qed.

End Ordered.
End More.

(** ** The properties above on the sample list *)

Lemma FindLessThan_finds_last_before_witness :
  exists lo hi,
    chain sample 0 = lo ++ hi /\
    Forall (fun a => before (key_at sample a) 5) lo /\
    Forall (fun a => ~ before (key_at sample a) 5) hi /\
    FindLessThan 32 sample 5 = Ok (last_or_head sample lo).
Proof.
  apply (FindLessThan_finds_last_before (Z_order false) sample 5 32 sample_reachable).
  simpl. lia.
Defined.

Lemma FindLast_finds_the_last_node_witness :
  FindLast 32 sample = Ok (last_or_head sample (chain sample 0)).
Proof.
  apply (FindLast_finds_the_last_node (Z_order false) sample 32 sample_reachable).
  simpl. lia.
Defined.

Lemma Prev_moves_to_the_node_in_front_witness :
  Iterator.Prev 32 sample (Iterator.mkIterator (Some 1%nat))
    = Ok (Iterator.mkIterator (last [2%nat; 4%nat])).
Proof.
  apply (Prev_moves_to_the_node_in_front (Z_order false) sample [2%nat; 4%nat] 1%nat [3%nat] 32
           sample_reachable); [simpl; lia | reflexivity].
Defined.

Lemma SeekToLast_lands_on_the_largest_key_witness :
  Iterator.SeekToLast 32 sample (Iterator.Iterator_new sample)
    = Ok (Iterator.mkIterator (last (chain sample 0))) /\
  (forall l a, chain sample 0 = l ++ [a] ->
     Forall (fun b => before (key_at sample b) (key_at sample a)) l).
Proof.
  apply (SeekToLast_lands_on_the_largest_key (Z_order false) sample
           (Iterator.Iterator_new sample) 32 sample_reachable).
  simpl. lia.
Defined.

Lemma SeekToFirst_lands_on_the_smallest_key_witness :
  Iterator.SeekToFirst sample (Iterator.Iterator_new sample)
    = Ok (Iterator.mkIterator (head (chain sample 0))) /\
  (forall a l, chain sample 0 = a :: l ->
     Forall (fun b => before (key_at sample a) (key_at sample b)) l).
Proof.
  exact (SeekToFirst_lands_on_the_smallest_key (Z_order false) sample
           (Iterator.Iterator_new sample) sample_reachable).
Defined.

Lemma scan_backward_reads_keys_descending_witness :
  (let* it := Iterator.SeekToLast 32 sample (Iterator.Iterator_new sample) in
   scan_backward 8 32 sample it) = Ok (reverse (keys sample)) /\
  StronglySorted (fun a b => before b a) (reverse (keys sample)).
Proof.
  apply (scan_backward_reads_keys_descending (Z_order false) sample 8 32 sample_reachable);
    simpl; lia.
Defined.

Lemma Contains_after_Inserts_witness :
  exists sl0 sl : SkipList (ZParams false),
    SkipList_new = Ok sl0 /\ insert_all (P := ZParams false) 16 [5; 1; 9; 3] sl0 = Ok sl /\
    forall k : Z,
      (k ∈ [5; 1; 9; 3] -> Contains (P := ZParams false) 16 k sl = Ok (ret_bool true)) /\
      (k ∉ [5; 1; 9; 3] -> Contains (P := ZParams false) 16 k sl = Ok (ret_name "flase")).
Proof.
  apply (Contains_after_Inserts (P := ZParams false) (Z_order false) [5; 1; 9; 3] 16).
  - compute_done.
  - simpl. lia.
Defined.

Lemma Next_below_the_height_is_initialised_witness :
  exists q, Next sample (Some 2%nat) (Z.of_nat 0) = Ok q /\
    match q with
    | None => True
    | Some b => (0 < b < length (nodes sample))%nat /\ (0 < height sample b)%nat /\
                (2%nat <> O -> before (key_at sample 2) (key_at sample b))
    end.
Proof.
  apply (Next_below_the_height_is_initialised (Z_order false) sample 2 0 sample_reachable);
    [simpl; lia | unfold height; simpl; lia].
Defined.

Lemma levels_are_nested_witness :
  chain sample 1 = above sample 1 (chain sample 0) /\
  (forall i, (i <= 1)%nat -> chain sample 1 `sublist_of` chain sample i) /\
  (GetMaxHight sample <= Z.of_nat 1 -> chain sample 1 = []).
Proof.
  apply (levels_are_nested (Z_order false) sample 1 sample_reachable). lia.
Defined.

Lemma GetMaxHight_is_the_height_of_the_tallest_node_witness :
  (forall a, a ∈ chain sample 0 -> 1 <= Z.of_nat (height sample a) <= GetMaxHight sample) /\
  (GetMaxHight sample = 1 \/
   exists a, a ∈ chain sample 0 /\ Z.of_nat (height sample a) = GetMaxHight sample).
Proof.
  exact (GetMaxHight_is_the_height_of_the_tallest_node (Z_order false) sample
           sample_reachable).
Defined.

Lemma Insert_adds_one_node_in_key_order_witness :
  exists sl' (l1 l2 : list Z),
    Insert (P := ZParams false) 32 7 sample = Ok sl' /\
    keys sample = l1 ++ l2 /\ keys sl' = l1 ++ 7 :: l2 /\
    Forall (fun x => before (P := ZParams false) x 7) l1 /\
    Forall (fun x => before (P := ZParams false) 7 x) l2 /\
    length (nodes sl') = S (length (nodes sample)) /\ head_ sl' = head_ sample /\
    forall a, (a < length (nodes sample))%nat ->
      key_at sl' a = key_at sample a /\ height sl' a = height sample a.
Proof.
  apply (Insert_adds_one_node_in_key_order (Z_order false) sample 7 32 sample_reachable);
    [simpl; lia |].
  rewrite sample_keys. compute_done.
Defined.

Lemma FindLessThan_is_in_front_of_FindGreaterOrEqual_witness :
  exists x y,
    FindLessThan 32 sample 4 = Ok x /\
    FindGreaterOrEqual 32 sample 4 None = Ok (y, None) /\
    Next sample x 0 = Ok y.
Proof.
  apply (FindLessThan_is_in_front_of_FindGreaterOrEqual (Z_order false) sample 4 32
           sample_reachable).
  simpl. lia.
Defined.


Lemma forward_scan_stays_on_the_first_node_witness :
  Iterator.Next sample (Iterator.mkIterator (Some 4%nat))
    = Ok (Iterator.mkIterator (Some 4%nat)) /\
  (let* it := Iterator.SeekToFirst sample (Iterator.Iterator_new sample) in
   scan_forward 100 sample it) = Fault OutOfFuel.
Proof.
  apply (forward_scan_stays_on_the_first_node (Z_order false) sample [2%nat] 4%nat
           [1%nat; 3%nat] 100 sample_reachable).
  reflexivity.
Defined.


Lemma fresh_list_is_empty_witness :
  exists sl : SkipList (ZParams false),
    SkipList_new = Ok sl /\
    length (nodes sl) = 1%nat /\ GetMaxHight sl = 1 /\ keys sl = [] /\
    Contains (P := ZParams false) 1 7 sl = Ok (ret_name "flase") /\
    FindGreaterOrEqual (P := ZParams false) 1 sl 7 None = Ok (None, None) /\
    FindLessThan (P := ZParams false) 1 sl 7 = Ok (head_ sl) /\
    FindLast 1 sl = Ok (head_ sl) /\
    Iterator.SeekToFirst sl (Iterator.Iterator_new sl) = Ok (Iterator.Iterator_new sl) /\
    Iterator.SeekToLast 1 sl (Iterator.Iterator_new sl) = Ok (Iterator.Iterator_new sl).
Proof.
  destruct (fresh_list_is_empty (P := ZParams false) (Z_order false) 7 1
              (Iterator.mkIterator None) ltac:(lia)) as (sl & H).
  exists sl. exact H.
Defined.

End SkipListMore.

(** * More about the arena *)

Module ArenaMore.
Import Arena.

Local Open Scope N_scope.

(** X17.  Two requests that together fit into what is left of the
    current block are served back to back from the cursor: the second
    range starts where the first ends, the arena is left as one request
    for the sum would leave it, and no block is added, so
    [MemoryUsage()] stays as it was. *)
Theorem Allocate_within_the_block_is_contiguous (a : Arena) (m n : N) :
  m + n <= alloc_bytes_remaining_ a ->
  (Allocate m a).1 = alloc_ptr_ a /\
  (Allocate n (Allocate m a).2).1 = ptr_add (alloc_ptr_ a) m /\
  (Allocate n (Allocate m a).2).2 = (Allocate (m + n) a).2 /\
  alloc_bytes_remaining_ (Allocate n (Allocate m a).2).2 = alloc_bytes_remaining_ a - (m + n) /\
  blocks (Allocate n (Allocate m a).2).2 = blocks a /\
  MemoryUsage (Allocate n (Allocate m a).2).2 = MemoryUsage a.
Proof.
  intros Hfit. unfold Allocate, MemoryUsage.
  destruct (N.leb_spec m (alloc_bytes_remaining_ a)) as [_ | Hm]; [| lia]. simpl.
  destruct (N.leb_spec n (alloc_bytes_remaining_ a - m)) as [_ | Hn]; [| lia]. simpl.
  destruct (N.leb_spec (m + n) (alloc_bytes_remaining_ a)) as [_ | Hmn]; [| lia]. simpl.
  repeat split; try done.
  - f_equal; [| lia]. destruct (alloc_ptr_ a) as [| b o]; [done |]. simpl. f_equal. lia.
  - lia.
Qed.

Lemma Allocate_within_the_block_is_contiguous_witness :
  let a := mkArena (Ptr 0 16) 4080 [4096] 4096 in
  (Allocate 24 a).1 = Ptr 0 16 /\
  (Allocate 40 (Allocate 24 a).2).1 = Ptr 0 40 /\
  (Allocate 40 (Allocate 24 a).2).2 = (Allocate 64 a).2 /\
  alloc_bytes_remaining_ (Allocate 40 (Allocate 24 a).2).2 = 4016 /\
  blocks (Allocate 40 (Allocate 24 a).2).2 = [4096] /\
  MemoryUsage (Allocate 40 (Allocate 24 a).2).2 = 4096.
Proof.
  intros a.
  apply (Allocate_within_the_block_is_contiguous (mkArena (Ptr 0 16) 4080 [4096] 4096) 24 40).
  simpl. lia.
Defined.

(** X18.  The assertion of [Allocate] admits a request for no bytes.
    Such a request returns the cursor and leaves the arena as it was, so
    the request that follows, when it fits into the block, is answered
    with the same address. *)
Theorem Allocate_of_no_bytes_returns_the_cursor (a : Arena) (n : N) :
  n <= alloc_bytes_remaining_ a ->
  Allocate 0 a = (alloc_ptr_ a, a) /\
  (Allocate n (Allocate 0 a).2).1 = (Allocate 0 a).1.
Proof.
  intros Hfit.
  assert (Allocate 0 a = (alloc_ptr_ a, a)) as Hzero.
  { unfold Allocate. destruct (N.leb_spec 0 (alloc_bytes_remaining_ a)) as [_ | H0]; [| lia].
    destruct a as [p r bs u]. simpl. do 2 f_equal; [| lia].
    destruct p as [| b o]; [done |]. simpl. f_equal. lia. }
  split; [done |]. rewrite Hzero. simpl. unfold Allocate.
  by destruct (N.leb_spec n (alloc_bytes_remaining_ a)) as [_ | Hn]; [| lia].
Qed.

Lemma Allocate_of_no_bytes_returns_the_cursor_witness :
  let a := mkArena (Ptr 0 16) 4080 [4096] 4096 in
  Allocate 0 a = (Ptr 0 16, a) /\ (Allocate 24 (Allocate 0 a).2).1 = (Allocate 0 a).1.
Proof.
  intros a.
  apply (Allocate_of_no_bytes_returns_the_cursor (mkArena (Ptr 0 16) 4080 [4096] 4096) 24).
  simpl. lia.
Defined.

End ArenaMore.
